(** * QuantumBlochSphere: the state-representation and interpolation core

    A shallow embedding of [src/utils/quantum-math.ts] (coordinate
    converters, great-circle interpolation, easing curves) and of the
    [useAnimation] hook that drives them.

    Numbers.  A JavaScript [number] is modelled by a real number: [Math.sin],
    [Math.cos], [Math.sqrt], [Math.acos] and [Math.atan2] are their exact
    real counterparts, so the theorems below speak about the arithmetic the
    code is designed around, with rounding left out.  The reals have neither
    [NaN] nor infinities: an operation that would produce one (a division by
    zero, a square root or arc cosine outside its domain) leaves the model
    with [NonFinite].

    Where binary64 departs from the reals by more than rounding, the real
    model is not trusted: the squares the converters take overflow above
    [2^512] and underflow below [2^-538], an angle below [2^-1022] loses
    its [phi] in the products with its sine, and [Math.sin (Math.PI)] is
    [1.2246e-16], not zero.  The theorems on the real model carry the
    ranges in which the two agree up to rounding (see [well_scaled],
    [in_range], [min_normal] and [great_circle_defined]); outside them,
    and where rounding itself decides a property, the same functions are
    evaluated on IEEE binary64 in [Module Float64]. *)

From Stdlib Require Import Reals Lra Lia List Bool PArith ZArith.
From Stdlib Require Floats.
Import ListNotations.

Local Open Scope R_scope.

(** ** Results of the model *)

Inductive result (A : Type) : Type :=
| Ok (a : A)
| NonFinite
| OutOfFuel.

Arguments Ok {A} a.
Arguments NonFinite {A}.
Arguments OutOfFuel {A}.

Definition bind {A B : Type} (m : result A) (k : A -> result B) : result B :=
  match m with
  | Ok a => k a
  | NonFinite => NonFinite
  | OutOfFuel => OutOfFuel
  end.

Notation "v <- m ;; k" := (bind m (fun v => k))
  (at level 61, m at next level, right associativity).

(** ** The parts of [Math] the code uses *)

Definition Math_PI : R := PI.
Definition Math_sin (a : R) : R := sin a.
Definition Math_cos (a : R) : R := cos a.
Definition Math_abs (a : R) : R := Rabs a.
Definition Math_min (a b : R) : R := Rmin a b.
Definition Math_max (a b : R) : R := Rmax a b.

Definition Math_sqrt (a : R) : result R :=
  if Rle_dec 0 a then Ok (sqrt a) else NonFinite.

Definition Math_acos (a : R) : result R :=
  if Rle_dec (-1) a then
    if Rle_dec a 1 then Ok (acos a) else NonFinite
  else NonFinite.

(** [Math.atan2 (b, a)]: the angle of the point [(a, b)], in [(-PI, PI]];
    [0] at the origin. *)
Definition Math_atan2 (b a : R) : R :=
  if Rlt_dec 0 a then atan (b / a)
  else if Rlt_dec a 0 then
    if Rle_dec 0 b then atan (b / a) + PI else atan (b / a) - PI
  else if Rlt_dec 0 b then PI / 2
  else if Rlt_dec b 0 then - (PI / 2)
  else 0.

(** [a / b] on numbers. *)
Definition div (a b : R) : result R :=
  if Req_dec_T b 0 then NonFinite else Ok (a / b).

(** ** src/types/index.ts *)

Record Complex : Type := { real : R; imag : R }.

Record ComplexAmplitude : Type := { alpha : Complex; beta : Complex }.

Record SphericalCoordinates : Type := { theta : R; phi : R }.

Record CartesianCoordinates : Type := { x : R; y : R; z : R }.

Inductive EasingFunction : Type := linear | easeInOut | easeIn | easeOut.

(** Every field of [AnimationConfig] is optional. *)
Record AnimationConfig : Type :=
  { enabled : option bool;
    duration : option R;
    easing : option EasingFunction }.

(** ** src/utils/quantum-math.ts *)

(** [while (phi < 0) phi += 2 * Math.PI;] *)
Fixpoint while_negative (fuel : nat) (p : R) : result R :=
  if Rlt_dec p 0 then
    match fuel with
    | O => OutOfFuel
    | S fuel' => while_negative fuel' (p + 2 * Math_PI)
    end
  else Ok p.

(** [while (phi >= 2 * Math.PI) phi -= 2 * Math.PI;] *)
Fixpoint while_full_turn (fuel : nat) (p : R) : result R :=
  if Rle_dec (2 * Math_PI) p then
    match fuel with
    | O => OutOfFuel
    | S fuel' => while_full_turn fuel' (p - 2 * Math_PI)
    end
  else Ok p.

(** On the reals the squares below neither overflow nor underflow; the
    binary64 counterpart, where they do, is [Float64.amplitudesToSpherical]. *)
Definition amplitudesToSpherical (fuel : nat) (amp : ComplexAmplitude)
  : result SphericalCoordinates :=
  let al := alpha amp in
  let be := beta amp in
  alphaMag <- Math_sqrt (real al ^ 2 + imag al ^ 2) ;;
  betaMag <- Math_sqrt (real be ^ 2 + imag be ^ 2) ;;
  norm <- Math_sqrt (alphaMag ^ 2 + betaMag ^ 2) ;;
  if Req_dec_T norm 0 then Ok {| theta := 0; phi := 0 |}
  else
    normAlphaMag <- div alphaMag norm ;;
    ac <- Math_acos (Math_min 1 (Math_max 0 normAlphaMag)) ;;
    let th := 2 * ac in
    let alphaPhase := Math_atan2 (imag al) (real al) in
    let betaPhase := Math_atan2 (imag be) (real be) in
    p <- while_negative fuel (betaPhase - alphaPhase) ;;
    p <- while_full_turn fuel p ;;
    Ok {| theta := th; phi := p |}.

Definition sphericalToAmplitudes (coords : SphericalCoordinates)
  : ComplexAmplitude :=
  let cosHalfTheta := Math_cos (theta coords / 2) in
  let sinHalfTheta := Math_sin (theta coords / 2) in
  {| alpha := {| real := cosHalfTheta; imag := 0 |};
     beta := {| real := sinHalfTheta * Math_cos (phi coords);
                imag := sinHalfTheta * Math_sin (phi coords) |} |}.

Definition sphericalToCartesian (coords : SphericalCoordinates)
  : CartesianCoordinates :=
  {| x := Math_sin (theta coords) * Math_cos (phi coords);
     y := Math_sin (theta coords) * Math_sin (phi coords);
     z := Math_cos (theta coords) |}.

(** On the reals the squares below neither overflow nor underflow, and
    [r === 0] tests the exact length; the binary64 counterpart is
    [Float64.cartesianToSpherical]. *)
Definition cartesianToSpherical (fuel : nat) (cart : CartesianCoordinates)
  : result SphericalCoordinates :=
  r <- Math_sqrt (x cart ^ 2 + y cart ^ 2 + z cart ^ 2) ;;
  if Req_dec_T r 0 then Ok {| theta := 0; phi := 0 |}
  else
    q <- div (z cart) r ;;
    th <- Math_acos (Math_min 1 (Math_max (-1) q)) ;;
    p <- while_negative fuel (Math_atan2 (y cart) (x cart)) ;;
    Ok {| theta := th; phi := p |}.

(** The dot product [slerp] takes of the two unit vectors. *)
Definition dot (u v : CartesianCoordinates) : R :=
  x u * x v + y u * y v + z u * z v.

(** For exactly opposite points [omega] is [PI] and the divisor
    [sin (PI)] is zero: the model answers [NonFinite] there, where the
    program divides by [Math.sin (Math.PI)], which is [1.2246e-16]; the
    binary64 counterpart is [Float64.slerp]. *)
Definition slerp (fuel : nat) (start end_ : SphericalCoordinates) (t : R)
  : result SphericalCoordinates :=
  let startCart := sphericalToCartesian start in
  let endCart := sphericalToCartesian end_ in
  let clampedDot := Math_max (-1) (Math_min 1 (dot startCart endCart)) in
  omega <- Math_acos clampedDot ;;
  if Rlt_dec (Math_abs omega) (1 / 10000) then
    Ok {| theta := theta start + t * (theta end_ - theta start);
          phi := phi start + t * (phi end_ - phi start) |}
  else
    let sinOmega := Math_sin omega in
    a <- div (Math_sin ((1 - t) * omega)) sinOmega ;;
    b <- div (Math_sin (t * omega)) sinOmega ;;
    cartesianToSpherical fuel
      {| x := a * x startCart + b * x endCart;
         y := a * y startCart + b * y endCart;
         z := a * z startCart + b * z endCart |}.

Definition easingFunctions (e : EasingFunction) (t : R) : R :=
  match e with
  | linear => t
  | easeIn => t * t
  | easeOut => t * (2 - t)
  | easeInOut => if Rlt_dec t (1 / 2) then 2 * t * t else -1 + (4 - 2 * t) * t
  end.

(** The state [c * |psi>], for a real factor [c]. *)
Definition rescale (c : R) (amp : ComplexAmplitude) : ComplexAmplitude :=
  {| alpha := {| real := c * real (alpha amp); imag := c * imag (alpha amp) |};
     beta := {| real := c * real (beta amp); imag := c * imag (beta amp) |} |}.

(** ** The animation driver: [useAnimation]

    The hook is a React function component hook; the model keeps what it
    keeps between renders (one piece of state, five refs), the browser's
    queue of requested animation frames, and what React remembers of the
    last effect run (its dependency array and whether it returned a clean-up
    function).  The callbacks [onStart] and [onEnd] are recorded in a log;
    each entry carries, as a label that the source does not pass, the target
    of the render whose effect (or whose [animate] closure) made the call.

    A state holding non-finite fields is [NonFinite]. *)

Inductive Event : Type :=
| AnimationStart (target : SphericalCoordinates)
| AnimationEnd (target : SphericalCoordinates).

(** What one [animate] closure has captured from its render. *)
Record Closure : Type :=
  { cl_target : SphericalCoordinates;
    cl_duration : R;
    cl_easing : EasingFunction }.

Record Hook : Type :=
  { currentState : result SphericalCoordinates;
    animationRef : option positive;
    startStateRef : result SphericalCoordinates;
    startTimeRef : option R;
    isFirstRender : bool;
    prevTargetRef : SphericalCoordinates }.

(** The dependency array [[targetState.theta, targetState.phi, enabled,
    duration, easing]]. *)
Record Deps : Type :=
  { d_theta : R; d_phi : R; d_enabled : bool; d_duration : R;
    d_easing : EasingFunction }.

Record World : Type :=
  { hook : Hook;
    frames : list (positive * Closure);
    next_frame : positive;
    cleanup : bool;
    deps : option Deps;
    log : list Event }.

Definition Req_b (a b : R) : bool := if Req_dec_T a b then true else false.

Definition easing_eqb (a b : EasingFunction) : bool :=
  match a, b with
  | linear, linear | easeInOut, easeInOut | easeIn, easeIn | easeOut, easeOut => true
  | _, _ => false
  end.

Definition same_deps (a b : Deps) : bool :=
  Req_b (d_theta a) (d_theta b) && Req_b (d_phi a) (d_phi b)
  && Bool.eqb (d_enabled a) (d_enabled b)
  && Req_b (d_duration a) (d_duration b)
  && easing_eqb (d_easing a) (d_easing b).

(** [const { enabled = true, duration = 300, easing = 'easeInOut' } = config;] *)
Definition cfg_enabled (config : AnimationConfig) : bool :=
  match enabled config with Some b => b | None => true end.

Definition cfg_duration (config : AnimationConfig) : R :=
  match duration config with Some d => d | None => 300 end.

Definition cfg_easing (config : AnimationConfig) : EasingFunction :=
  match easing config with Some e => e | None => easeInOut end.

Definition deps_of (targetState : SphericalCoordinates) (config : AnimationConfig)
  : Deps :=
  {| d_theta := theta targetState; d_phi := phi targetState;
     d_enabled := cfg_enabled config; d_duration := cfg_duration config;
     d_easing := cfg_easing config |}.

Definition set_hook (h : Hook) (w : World) : World :=
  {| hook := h; frames := frames w; next_frame := next_frame w;
     cleanup := cleanup w; deps := deps w; log := log w |}.

Definition set_cleanup (b : bool) (w : World) : World :=
  {| hook := hook w; frames := frames w; next_frame := next_frame w;
     cleanup := b; deps := deps w; log := log w |}.

Definition set_deps (d : Deps) (w : World) : World :=
  {| hook := hook w; frames := frames w; next_frame := next_frame w;
     cleanup := cleanup w; deps := Some d; log := log w |}.

Definition emit (ev : Event) (w : World) : World :=
  {| hook := hook w; frames := frames w; next_frame := next_frame w;
     cleanup := cleanup w; deps := deps w; log := log w ++ [ev] |}.

(** [requestAnimationFrame (animate)]: the callback joins the queue under a
    fresh handle, which is returned. *)
Definition requestAnimationFrame (cl : Closure) (w : World) : positive * World :=
  (next_frame w,
   {| hook := hook w; frames := frames w ++ [(next_frame w, cl)];
      next_frame := Pos.succ (next_frame w);
      cleanup := cleanup w; deps := deps w; log := log w |}).

Definition cancelAnimationFrame (id : positive) (w : World) : World :=
  {| hook := hook w;
     frames := filter (fun e => negb (Pos.eqb (fst e) id)) (frames w);
     next_frame := next_frame w;
     cleanup := cleanup w; deps := deps w; log := log w |}.

(** [if (animationRef.current) cancelAnimationFrame (animationRef.current);]
    A handle is a positive integer, hence truthy. *)
Definition cancel_current (w : World) : World :=
  match animationRef (hook w) with
  | Some id => cancelAnimationFrame id w
  | None => w
  end.

(** [Math.min (elapsed / duration, 1)].  With [duration = 0] the quotient is
    [Infinity] for a positive [elapsed], which the minimum brings back to
    [1], and not a finite number otherwise. *)
Definition progress_of (elapsed dur : R) : result R :=
  if Req_dec_T dur 0 then
    if Rlt_dec 0 elapsed then Ok 1 else NonFinite
  else Ok (Math_min (elapsed / dur) 1).

(** [progress < 1]: false on [NaN], true on [-Infinity]. *)
Definition progress_lt_1 (elapsed : R) (progress : result R) : bool :=
  match progress with
  | Ok p => if Rlt_dec p 1 then true else false
  | _ => if Rlt_dec elapsed 0 then true else false
  end.

Section Driver.

(** Bound on the turns of the normalisation loop inside [slerp]. *)
Variable fuel : nat.

(** One call of the closure [animate (timestamp)]. *)
Definition animate (cl : Closure) (timestamp : R) (w : World) : World :=
  let h := hook w in
  let startTime :=
    match startTimeRef h with None => timestamp | Some t0 => t0 end in
  let elapsed := timestamp - startTime in
  let progress := progress_of elapsed (cl_duration cl) in
  let interpolated :=
    p <- progress ;;
    s <- startStateRef h ;;
    slerp fuel s (cl_target cl) (easingFunctions (cl_easing cl) p) in
  let h1 :=
    {| currentState := interpolated; animationRef := animationRef h;
       startStateRef := startStateRef h; startTimeRef := Some startTime;
       isFirstRender := isFirstRender h; prevTargetRef := prevTargetRef h |} in
  let w1 := set_hook h1 w in
  if progress_lt_1 elapsed progress then
    let (id, w2) := requestAnimationFrame cl w1 in
    set_hook
      {| currentState := interpolated; animationRef := Some id;
         startStateRef := startStateRef h; startTimeRef := Some startTime;
         isFirstRender := isFirstRender h; prevTargetRef := prevTargetRef h |}
      w2
  else
    emit (AnimationEnd (cl_target cl))
      (set_hook
         {| currentState := interpolated; animationRef := None;
            startStateRef := startStateRef h; startTimeRef := Some startTime;
            isFirstRender := isFirstRender h; prevTargetRef := prevTargetRef h |}
         w1).

(** One display refresh: the callbacks requested so far run, in order;
    what they request is for the next refresh. *)
Definition frame (timestamp : R) (w : World) : World :=
  fold_left (fun w' e => animate (snd e) timestamp w') (frames w)
    {| hook := hook w; frames := []; next_frame := next_frame w;
       cleanup := cleanup w; deps := deps w; log := log w |}.

End Driver.

(** The body of the effect, run for a render with [targetState] and
    [config]; [targetChanged] is what that render computed. *)
Definition effect (targetState : SphericalCoordinates) (config : AnimationConfig)
    (targetChanged : bool) (w : World) : World :=
  let h := hook w in
  if isFirstRender h then
    set_cleanup false
      (set_hook
         {| currentState := Ok targetState; animationRef := animationRef h;
            startStateRef := startStateRef h; startTimeRef := startTimeRef h;
            isFirstRender := false; prevTargetRef := targetState |} w)
  else if negb targetChanged then set_cleanup false w
  else if negb (cfg_enabled config) then
    set_cleanup false
      (set_hook
         {| currentState := Ok targetState; animationRef := animationRef h;
            startStateRef := startStateRef h; startTimeRef := startTimeRef h;
            isFirstRender := isFirstRender h; prevTargetRef := targetState |} w)
  else
    let w1 :=
      cancel_current
        (set_hook
           {| currentState := currentState h; animationRef := animationRef h;
              startStateRef := startStateRef h; startTimeRef := startTimeRef h;
              isFirstRender := isFirstRender h; prevTargetRef := targetState |} w) in
    let w2 :=
      emit (AnimationStart targetState)
        (set_hook
           {| currentState := currentState h; animationRef := animationRef h;
              startStateRef := currentState h; startTimeRef := None;
              isFirstRender := isFirstRender h; prevTargetRef := targetState |} w1) in
    let (id, w3) :=
      requestAnimationFrame
        {| cl_target := targetState; cl_duration := cfg_duration config;
           cl_easing := cfg_easing config |} w2 in
    set_cleanup true
      (set_hook
         {| currentState := currentState h; animationRef := Some id;
            startStateRef := currentState h; startTimeRef := None;
            isFirstRender := isFirstRender h; prevTargetRef := targetState |} w3).

(** A render of the component with new props.  React runs the effect only
    when the dependency array changed, after the clean-up function the last
    effect run returned, if it returned one. *)
Definition render (targetState : SphericalCoordinates) (config : AnimationConfig)
    (w : World) : World :=
  let prev := prevTargetRef (hook w) in
  let targetChanged :=
    negb (Req_b (theta prev) (theta targetState))
    || negb (Req_b (phi prev) (phi targetState)) in
  let d := deps_of targetState config in
  let run :=
    set_deps d
      (effect targetState config targetChanged
         (if cleanup w then cancel_current w else w)) in
  match deps w with
  | Some d0 => if same_deps d0 d then w else run
  | None => run
  end.

(** The first render: [useState] and [useRef] take their initial values,
    then the effect runs for the first time. *)
Definition mount (targetState : SphericalCoordinates) (config : AnimationConfig)
  : World :=
  render targetState config
    {| hook :=
         {| currentState := Ok targetState; animationRef := None;
            startStateRef := Ok targetState; startTimeRef := None;
            isFirstRender := true; prevTargetRef := targetState |};
       frames := []; next_frame := 1%positive; cleanup := false;
       deps := None; log := [] |}.

(** What happens to a mounted hook whose props stay [targetState] and
    [config]: a display refresh, or a render again (every
    [setCurrentState] asks for one). *)
Inductive Tick : Type :=
| Frame (timestamp : R)
| Rerender.

Definition tick (fuel : nat) (targetState : SphericalCoordinates)
    (config : AnimationConfig) (w : World) (t : Tick) : World :=
  match t with
  | Frame timestamp => frame fuel timestamp w
  | Rerender => render targetState config w
  end.

Definition run_ticks (fuel : nat) (targetState : SphericalCoordinates)
    (config : AnimationConfig) (ticks : list Tick) (w : World) : World :=
  fold_left (tick fuel targetState config) ticks w.

(** The worlds a mounted hook can be in. *)
Inductive reachable (fuel : nat) : World -> Prop :=
| reach_mount targetState config :
    reachable fuel (mount targetState config)
| reach_render targetState config w :
    reachable fuel w -> reachable fuel (render targetState config w)
| reach_frame timestamp w :
    reachable fuel w -> reachable fuel (frame fuel timestamp w).

(** An animation is in flight when a frame is still requested. *)
Definition in_flight (w : World) : Prop := frames w <> [].

(** At most one frame is requested at any time: the one [animationRef]
    holds, for the tracked target, with its clean-up function registered. *)
Definition one_frame (w : World) : Prop :=
  frames w = []
  \/ exists id cl,
       frames w = [(id, cl)] /\ animationRef (hook w) = Some id
       /\ cl_target cl = prevTargetRef (hook w) /\ cleanup w = true.

Definition tracked_deps (w : World) : Prop :=
  exists d, deps w = Some d
            /\ d_theta d = theta (prevTargetRef (hook w))
            /\ d_phi d = phi (prevTargetRef (hook w)).

Definition Inv (w : World) : Prop :=
  isFirstRender (hook w) = false /\ tracked_deps w /\ one_frame w.

(** After a new target [B] superseded the animation in flight: every frame
    still requested is for [B], interpolation starts from [s0], and the log
    has grown from [lg] by end events of [B] only. *)
Definition driving (B : SphericalCoordinates) (s0 : result SphericalCoordinates)
    (lg : list Event) (w : World) : Prop :=
  startStateRef (hook w) = s0
  /\ (forall e, In e (frames w) -> cl_target (snd e) = B)
  /\ exists ends, log w = lg ++ ends
                  /\ forall ev, In ev ends -> ev = AnimationEnd B.

(** ** The converters and [slerp] on IEEE binary64

    The same functions on the numbers the program really computes with.
    Addition, multiplication, division, square root and comparison are the
    IEEE operations; [Math.acos] and [Math.atan2], which the language leaves
    to the engine, are taken from a record.  [a ** 2] is [a * a]. *)

Module Float64.

Import Floats.
Local Open Scope float_scope.

Record Libm : Type :=
  { Math_acos : float -> float;
    Math_atan2 : float -> float -> float }.

Record SphericalCoordinates : Type := { theta : float; phi : float }.

Record CartesianCoordinates : Type := { x : float; y : float; z : float }.

(** The binary64 number nearest to pi. *)
Definition Math_PI : float := 0x1.921fb54442d18p+1.

Definition Math_min (a b : float) : float :=
  if is_nan a then a else if is_nan b then b
  else if b <? a then b else a.

Definition Math_max (a b : float) : float :=
  if is_nan a then a else if is_nan b then b
  else if a <? b then b else a.

(** [while (phi < 0) phi += 2 * Math.PI;] *)
Fixpoint while_negative (fuel : nat) (p : float) : result float :=
  if p <? 0 then
    match fuel with
    | O => OutOfFuel
    | S fuel' => while_negative fuel' (p + 2 * Math_PI)
    end
  else Ok p.

Definition cartesianToSpherical (M : Libm) (fuel : nat)
    (cart : CartesianCoordinates) : result SphericalCoordinates :=
  let r := sqrt (x cart * x cart + y cart * y cart + z cart * z cart) in
  if r =? 0 then Ok {| theta := 0; phi := 0 |}
  else
    let th := Math_acos M (Math_min 1 (Math_max (-1) (z cart / r))) in
    p <- while_negative fuel (Math_atan2 M (y cart) (x cart)) ;;
    Ok {| theta := th; phi := p |}.

(** The binary64 number that the literal [1e-20] denotes. *)
Definition tiny : float := 0x1.79ca10c924223p-67.

(** A vector a hair below the positive x axis. *)
Definition below_x_axis : CartesianCoordinates :=
  {| x := 1; y := - tiny; z := 0 |}.

(** [2 * Math.PI], the bound [phi] is to stay under. *)
Definition full_turn : float := 2 * Math_PI.

(** A table of [Math.acos] and [Math.atan2] that is right at the two
    places the example below looks at: [acos 0] is the binary64 number
    nearest to pi/2, and the angle of [(1, b)] for a [b] this small is
    [b] itself. *)
Definition libm_near_x_axis : Libm :=
  {| Math_acos := fun _ => 0x1.921fb54442d18p+0;
     Math_atan2 := fun b a => b / a |}.

(** *** The other converters on binary64

    [Math.sin] and [Math.cos] come from a second record.  [a ** 2] is
    [a * a] here too. *)

Record Trig : Type :=
  { Math_sin : float -> float;
    Math_cos : float -> float }.

Record Complex : Type := { real : float; imag : float }.

Record ComplexAmplitude : Type := { alpha : Complex; beta : Complex }.

Definition sphericalToCartesian (T : Trig) (coords : SphericalCoordinates)
  : CartesianCoordinates :=
  {| x := Math_sin T (theta coords) * Math_cos T (phi coords);
     y := Math_sin T (theta coords) * Math_sin T (phi coords);
     z := Math_cos T (theta coords) |}.

Definition sphericalToAmplitudes (T : Trig) (coords : SphericalCoordinates)
  : ComplexAmplitude :=
  let cosHalfTheta := Math_cos T (theta coords / 2) in
  let sinHalfTheta := Math_sin T (theta coords / 2) in
  {| alpha := {| real := cosHalfTheta; imag := 0 |};
     beta := {| real := sinHalfTheta * Math_cos T (phi coords);
                imag := sinHalfTheta * Math_sin T (phi coords) |} |}.

(** [while (phi >= 2 * Math.PI) phi -= 2 * Math.PI;] *)
Fixpoint while_full_turn (fuel : nat) (p : float) : result float :=
  if 2 * Math_PI <=? p then
    match fuel with
    | O => OutOfFuel
    | S fuel' => while_full_turn fuel' (p - 2 * Math_PI)
    end
  else Ok p.

Definition amplitudesToSpherical (M : Libm) (fuel : nat) (amp : ComplexAmplitude)
  : result SphericalCoordinates :=
  let al := alpha amp in
  let be := beta amp in
  let alphaMag := sqrt (real al * real al + imag al * imag al) in
  let betaMag := sqrt (real be * real be + imag be * imag be) in
  let norm := sqrt (alphaMag * alphaMag + betaMag * betaMag) in
  if norm =? 0 then Ok {| theta := 0; phi := 0 |}
  else
    let normAlphaMag := alphaMag / norm in
    let th := 2 * Math_acos M (Math_min 1 (Math_max 0 normAlphaMag)) in
    let alphaPhase := Math_atan2 M (imag al) (real al) in
    let betaPhase := Math_atan2 M (imag be) (real be) in
    p <- while_negative fuel (betaPhase - alphaPhase) ;;
    p <- while_full_turn fuel p ;;
    Ok {| theta := th; phi := p |}.

(** The state [c * |psi>]. *)
Definition rescale (c : float) (amp : ComplexAmplitude) : ComplexAmplitude :=
  {| alpha := {| real := c * real (alpha amp); imag := c * imag (alpha amp) |};
     beta := {| real := c * real (beta amp); imag := c * imag (beta amp) |} |}.

(** [0.0001], the bound of the fallback of [slerp], as the binary64
    number the literal denotes. *)
Definition nearly_identical : float := 0x1.a36e2eb1c432dp-14.

Definition dot (u v : CartesianCoordinates) : float :=
  x u * x v + y u * y v + z u * z v.

Definition slerp (M : Libm) (T : Trig) (fuel : nat)
    (start end_ : SphericalCoordinates) (t : float)
  : result SphericalCoordinates :=
  let startCart := sphericalToCartesian T start in
  let endCart := sphericalToCartesian T end_ in
  let clampedDot := Math_max (-1) (Math_min 1 (dot startCart endCart)) in
  let omega := Math_acos M clampedDot in
  if abs omega <? nearly_identical then
    Ok {| theta := theta start + t * (theta end_ - theta start);
          phi := phi start + t * (phi end_ - phi start) |}
  else
    let sinOmega := Math_sin T omega in
    let a := Math_sin T ((1 - t) * omega) / sinOmega in
    let b := Math_sin T (t * omega) / sinOmega in
    cartesianToSpherical M fuel
      {| x := a * x startCart + b * x endCart;
         y := a * y startCart + b * y endCart;
         z := a * z startCart + b * z endCart |}.

(** The values an engine returns at the few arguments the examples
    reach ([nan] elsewhere): [acos] at [1], [0] and [-1]; [atan2] on the
    positive x axis and on the diagonal of the first quadrant; [sin] and
    [cos] at [1], at [Math.PI] ([Math.sin (Math.PI)] is [1.2246e-16], not
    zero) and at arguments below [2^-30], where [sin a] is [a] and
    [cos a] is [1] to the last bit. *)
Definition engine : Libm :=
  {| Math_acos := fun a =>
       if a =? 1 then 0
       else if a =? 0 then 0x1.921fb54442d18p+0
       else if a =? -1 then Math_PI
       else nan;
     Math_atan2 := fun b a =>
       if (b =? 0) && (0 <=? a) then 0
       else if (b =? a) && (0 <? a) then 0x1.921fb54442d18p-1
       else nan |}.

Definition engine_trig : Trig :=
  {| Math_sin := fun a =>
       if abs a <? 0x1p-30 then a
       else if a =? 1 then 0x1.aed548f090ceep-1
       else if a =? Math_PI then 0x1.1a62633145c07p-53
       else nan;
     Math_cos := fun a =>
       if abs a <? 0x1p-30 then 1
       else if a =? 1 then 0x1.14a280fb5068cp-1
       else if a =? Math_PI then -1
       else nan |}.

(** The smallest positive binary64 number, [5e-324]. *)
Definition min_subnormal : float := 0x1p-1074.

(** A point that is not a pole, a hair from the north pole. *)
Definition near_north : SphericalCoordinates :=
  {| theta := min_subnormal; phi := 1 |}.

(** The two poles, [commonStates.zero] and [commonStates.one]: a pair of
    opposite points. *)
Definition north_pole : SphericalCoordinates := {| theta := 0; phi := 0 |}.
Definition south_pole : SphericalCoordinates :=
  {| theta := Math_PI; phi := 0 |}.


(** The binary64 number that the literal [1e-6] denotes. *)
Definition tolerance : float := 0x1.0c6f7a0b5ed8dp-20.


End Float64.

(** ** The rest of [quantum-math.ts] and of the hooks *)

(** [commonStates]: the six states on the axes. *)
Module commonStates.

Definition zero : SphericalCoordinates := {| theta := 0; phi := 0 |}.
Definition one : SphericalCoordinates := {| theta := Math_PI; phi := 0 |}.
Definition plus : SphericalCoordinates := {| theta := Math_PI / 2; phi := 0 |}.
Definition minus : SphericalCoordinates :=
  {| theta := Math_PI / 2; phi := Math_PI |}.
Definition plusI : SphericalCoordinates :=
  {| theta := Math_PI / 2; phi := Math_PI / 2 |}.
Definition minusI : SphericalCoordinates :=
  {| theta := Math_PI / 2; phi := (3 * Math_PI) / 2 |}.

End commonStates.

(** The vector [c * v]. *)
Definition scale_vector (c : R) (v : CartesianCoordinates) : CartesianCoordinates :=
  {| x := c * x v; y := c * y v; z := c * z v |}.

(** The state [e^(i gamma) * |psi>]: both amplitudes turned by [gamma]. *)
Definition rotate (gamma : R) (c : Complex) : Complex :=
  {| real := cos gamma * real c - sin gamma * imag c;
     imag := sin gamma * real c + cos gamma * imag c |}.

Definition global_phase (gamma : R) (amp : ComplexAmplitude) : ComplexAmplitude :=
  {| alpha := rotate gamma (alpha amp); beta := rotate gamma (beta amp) |}.

(** [useAnimationStatus (targetState, currentState, threshold)] *)
Definition useAnimationStatus (targetState currentState_ : SphericalCoordinates)
    (threshold : R) : bool :=
  let thetaDiff := Math_abs (theta targetState - theta currentState_) in
  let phiDiff := Math_abs (phi targetState - phi currentState_) in
  (if Rlt_dec threshold thetaDiff then true else false)
  || (if Rlt_dec threshold phiDiff then true else false).

(** ** BlochSphere.tsx: the target and the change notification *)

Inductive QuantumState : Type :=
| spherical (coords : SphericalCoordinates)
| amplitudes (amp : ComplexAmplitude).

(** [targetSpherical] *)
Definition targetSpherical (fuel : nat) (state : QuantumState)
  : result SphericalCoordinates :=
  match state with
  | spherical coords => Ok coords
  | amplitudes amp => amplitudesToSpherical fuel amp
  end.

(** What the notification effect keeps ([prevStateRef]) and the calls of
    [onStateChange] so far, oldest first. *)
Record Notifier : Type :=
  { prevStateRef : option SphericalCoordinates;
    notified : list (SphericalCoordinates * CartesianCoordinates) }.

(** One run of the effect, for a render whose [currentSpherical] is given;
    [onStateChange] tells whether the callback was passed. *)
Definition notifyEffect (onStateChange : bool)
    (currentSpherical : SphericalCoordinates) (n : Notifier) : Notifier :=
  if onStateChange then
    match prevStateRef n with
    | Some prev =>
        if Req_b (theta prev) (theta currentSpherical)
           && Req_b (phi prev) (phi currentSpherical)
        then n
        else {| prevStateRef := Some currentSpherical;
                notified := notified n
                  ++ [(currentSpherical, sphericalToCartesian currentSpherical)] |}
    | None =>
        {| prevStateRef := Some currentSpherical;
           notified := notified n
             ++ [(currentSpherical, sphericalToCartesian currentSpherical)] |}
    end
  else n.

Definition run_notify (onStateChange : bool)
    (states : list SphericalCoordinates) (n : Notifier) : Notifier :=
  fold_left (fun n' s => notifyEffect onStateChange s n') states n.

(** The same pair of angles. *)
Definition same_angles (a b : SphericalCoordinates) : bool :=
  Req_b (theta a) (theta b) && Req_b (phi a) (phi b).

(** A list of states with every state that repeats its predecessor left
    out; [last] is the state before the list, if any. *)
Fixpoint drop_repeats (last : option SphericalCoordinates)
    (states : list SphericalCoordinates) : list SphericalCoordinates :=
  match states with
  | [] => []
  | s :: rest =>
      match last with
      | Some p =>
          if same_angles p s then drop_repeats last rest
          else s :: drop_repeats (Some s) rest
      | None => s :: drop_repeats (Some s) rest
      end
  end.

(** ** components/Trajectory.tsx and components/EquatorCircle.tsx *)

(** [THREE.Vector3], as far as it is a triple of numbers. *)
Record Vector3 : Type := { vx : R; vy : R; vz : R }.

(** [points.slice (start)] for an integer [start]: from [start] when it is
    not negative, from [start] places before the end when it is, both
    brought into the array. *)
Definition slice_from {A : Type} (start : Z) (points : list A) : list A :=
  let len := Z.of_nat (length points) in
  let k := if (start <? 0)%Z then Z.max (len + start) 0 else Z.min start len in
  skipn (Z.to_nat k) points.

(** [linePoints] of [Trajectory]; [maxPoints] is an integer. *)
Definition linePoints (points : list SphericalCoordinates) (maxPoints : Z)
  : list Vector3 :=
  let recentPoints := slice_from (- maxPoints)%Z points in
  map (fun coords =>
         let cart := sphericalToCartesian coords in
         {| vx := x cart; vy := z cart; vz := y cart |})
      recentPoints.

(** [Trajectory] draws a line unless [linePoints.length < 2]. *)
Definition Trajectory_draws (points : list SphericalCoordinates) (maxPoints : Z)
  : bool :=
  negb (length (linePoints points maxPoints) <? 2)%nat.

(** The points [EquatorCircle] pushes to [equator], for [i] from [0] to
    [segments]; [segments] is a natural number. *)
Definition equator_point (segments i : nat) : result Vector3 :=
  q <- div (INR i) (INR segments) ;;
  let angle := q * Math_PI * 2 in
  Ok {| vx := Math_cos angle; vy := 0; vz := Math_sin angle |}.

Definition equatorPoints (segments : nat) : list (result Vector3) :=
  map (equator_point segments) (seq 0 (S segments)).

(** ** Counting in logs and lists *)

Definition is_start (ev : Event) : bool :=
  match ev with AnimationStart _ => true | AnimationEnd _ => false end.

Definition is_end (ev : Event) : bool :=
  match ev with AnimationStart _ => false | AnimationEnd _ => true end.

(** How often [onStart] and [onEnd] were called. *)
Definition starts (l : list Event) : nat := length (filter is_start l).
Definition ends (l : list Event) : nat := length (filter is_end l).

(** No state of the list has the angles of the state before it. *)
Fixpoint distinct_neighbours (l : list SphericalCoordinates) : Prop :=
  match l with
  | a :: (b :: _) as rest => same_angles a b = false /\ distinct_neighbours rest
  | _ => True
  end.

(** ** Where exact arithmetic stands for binary64

    The program squares its inputs before it takes a square root, and
    multiplies by sines that may be tiny.  Outside the ranges below
    binary64 overflows or underflows where the reals do not; inside, the
    two differ by rounding only.  The bounds are not tight: they leave
    room for the sums and the products in between. *)

(** The smallest positive normal binary64 number. *)
Definition min_normal : R := / 2 ^ 1022.

(** A sum of squares that binary64 holds without overflow or underflow. *)
Definition well_scaled (q : R) : Prop := / 2 ^ 1000 <= q <= 2 ^ 1000.

(** A factor that keeps a unit state well scaled. *)
Definition safe_factor (c : R) : Prop := / 2 ^ 400 <= c <= 2 ^ 400.

(** A component that binary64 squares and scales without overflow or
    underflow: zero, or of a magnitude between [2^-500] and [2^500]. *)
Definition in_range (a : R) : Prop :=
  a = 0 \/ / 2 ^ 500 <= Rabs a <= 2 ^ 500.

Definition squared_length (v : CartesianCoordinates) : R :=
  x v ^ 2 + y v ^ 2 + z v ^ 2.

Definition squared_norm (amp : ComplexAmplitude) : R :=
  real (alpha amp) ^ 2 + imag (alpha amp) ^ 2
  + (real (beta amp) ^ 2 + imag (beta amp) ^ 2).

Definition vector_in_range (v : CartesianCoordinates) : Prop :=
  in_range (x v) /\ in_range (y v) /\ in_range (z v).


(** The divisions of [slerp] are by a number that is not zero: either
    the fallback is taken, or [Math.sin (omega)] is not zero.  On binary64
    this is always so, since no number but zero has the sine zero there
    ([Math.sin (Math.PI)] is [1.22e-16]). *)
Definition great_circle_defined (s e : SphericalCoordinates) : Prop :=
  let omega :=
    acos (Math_max (-1)
            (Math_min 1 (dot (sphericalToCartesian s) (sphericalToCartesian e)))) in
  Math_abs omega < 1 / 10000 \/ Math_sin omega <> 0.

(** * Properties *)

(** ** The [Math] layer *)

Lemma Math_sqrt_ok (a : R) : 0 <= a -> Math_sqrt a = Ok (sqrt a).
Proof. intros H. unfold Math_sqrt. destruct (Rle_dec 0 a); [reflexivity | lra]. Qed.

Lemma Math_acos_ok (a : R) : -1 <= a <= 1 -> Math_acos a = Ok (acos a).
Proof.
  intros [H1 H2]. unfold Math_acos.
  destruct (Rle_dec (-1) a); [|lra]. destruct (Rle_dec a 1); [reflexivity | lra].
Qed.

Lemma div_ok (a b : R) : b <> 0 -> div a b = Ok (a / b).
Proof. intros H. unfold div. destruct (Req_dec_T b 0); [contradiction | reflexivity]. Qed.

Lemma tan_shift_PI (a : R) : cos a <> 0 -> tan (a + PI) = tan a.
Proof.
  intros H. unfold tan. rewrite neg_sin, neg_cos. field. exact H.
Qed.

Lemma sin_shift_2PI (a : R) : sin (a + 2 * PI) = sin a.
Proof.
  replace (a + 2 * PI) with ((a + PI) + PI) by ring.
  rewrite !neg_sin. ring.
Qed.

Lemma cos_shift_2PI (a : R) : cos (a + 2 * PI) = cos a.
Proof.
  replace (a + 2 * PI) with ((a + PI) + PI) by ring.
  rewrite !neg_cos. ring.
Qed.

Lemma sin_minus_PI (a : R) : sin (a - PI) = - sin a.
Proof.
  replace a with ((a - PI) + PI) at 2 by ring. rewrite neg_sin. ring.
Qed.

Lemma cos_minus_PI (a : R) : cos (a - PI) = - cos a.
Proof.
  replace a with ((a - PI) + PI) at 2 by ring. rewrite neg_cos. ring.
Qed.

(** [Math.atan2] recovers the angle of a point given in polar form. *)
Lemma Math_atan2_polar (k a : R) :
  0 < k -> - PI < a <= PI ->
  Math_atan2 (k * sin a) (k * cos a) = a.
Proof.
  intros Hk [Hlo Hhi].
  assert (HPI := PI_RGT_0).
  destruct (Rlt_le_dec a (- (PI / 2))) as [H1 | H1].
  - (* third quadrant: shift by PI *)
    set (b := a + PI).
    assert (Hb : - (PI / 2) < b < PI / 2) by (unfold b; lra).
    assert (Hc : 0 < cos b) by (apply cos_gt_0; lra).
    assert (Hs : 0 < sin b) by (apply sin_gt_0; unfold b; lra).
    replace a with (b - PI) at 1 2 by (unfold b; ring).
    rewrite sin_minus_PI, cos_minus_PI.
    unfold Math_atan2.
    destruct (Rlt_dec 0 (k * - cos b)) as [H | _]; [nra|].
    destruct (Rlt_dec (k * - cos b) 0) as [_ | H]; [|nra].
    destruct (Rle_dec 0 (k * - sin b)) as [H | _]; [nra|].
    replace (k * - sin b / (k * - cos b)) with (tan b)
      by (unfold tan; field; lra).
    rewrite atan_tan by exact Hb. unfold b; ring.
  - destruct H1 as [H1 | H1].
    + destruct (Rlt_le_dec a (PI / 2)) as [H2 | H2].
      * (* right half plane *)
        assert (Hc : 0 < cos a) by (apply cos_gt_0; lra).
        unfold Math_atan2.
        destruct (Rlt_dec 0 (k * cos a)) as [_ | H]; [|nra].
        replace (k * sin a / (k * cos a)) with (tan a)
          by (unfold tan; field; lra).
        apply atan_tan; lra.
      * destruct H2 as [H2 | H2].
        -- (* second quadrant: shift by -PI *)
           set (b := a - PI).
           assert (Hb : - (PI / 2) < b < PI / 2) by (unfold b; lra).
           assert (Hc : 0 < cos b) by (apply cos_gt_0; lra).
           assert (Hs : sin b <= 0).
           { destruct (Req_dec b 0) as [-> | Hb0]; [rewrite sin_0; lra|].
             left. apply sin_lt_0_var; unfold b in *; lra. }
           replace a with (b + PI) at 1 2 by (unfold b; ring).
           rewrite neg_sin, neg_cos.
           unfold Math_atan2.
           destruct (Rlt_dec 0 (k * - cos b)) as [H | _]; [nra|].
           destruct (Rlt_dec (k * - cos b) 0) as [_ | H]; [|nra].
           destruct (Rle_dec 0 (k * - sin b)) as [_ | H]; [|nra].
           replace (k * - sin b / (k * - cos b)) with (tan b)
             by (unfold tan; field; lra).
           rewrite atan_tan by exact Hb. unfold b; ring.
        -- (* a = PI / 2 *)
           subst a. rewrite sin_PI2, cos_PI2. unfold Math_atan2.
           destruct (Rlt_dec 0 (k * 0)) as [H | _]; [lra|].
           destruct (Rlt_dec (k * 0) 0) as [H | _]; [lra|].
           destruct (Rlt_dec 0 (k * 1)) as [_ | H]; [reflexivity | lra].
    + (* a = - PI / 2 *)
      subst a. rewrite sin_neg, cos_neg, sin_PI2, cos_PI2. unfold Math_atan2.
      destruct (Rlt_dec 0 (k * 0)) as [H | _]; [lra|].
      destruct (Rlt_dec (k * 0) 0) as [H | _]; [lra|].
      destruct (Rlt_dec 0 (k * - (1))) as [H | _]; [lra|].
      destruct (Rlt_dec (k * - (1)) 0) as [_ | H]; [reflexivity | lra].
Qed.

Lemma Math_atan2_bound (b a : R) : - PI < Math_atan2 b a <= PI.
Proof.
  assert (HPI := PI_RGT_0). unfold Math_atan2.
  destruct (Rlt_dec 0 a) as [Ha | Ha].
  - destruct (atan_bound (b / a)); lra.
  - destruct (Rlt_dec a 0) as [Ha' | Ha'].
    + assert (Hinv : / a < 0) by (apply Rinv_lt_0_compat; exact Ha').
      destruct (Rle_dec 0 b) as [Hb | Hb].
      * assert (Hq : b / a <= 0) by (unfold Rdiv; nra).
        assert (atan (b / a) <= 0).
        { destruct Hq as [Hq | Hq]; [|rewrite Hq, atan_0; lra].
          left. rewrite <- atan_0. apply atan_increasing; exact Hq. }
        destruct (atan_bound (b / a)); lra.
      * assert (Hq : 0 < b / a) by (unfold Rdiv; nra).
        assert (0 < atan (b / a))
          by (rewrite <- atan_0; apply atan_increasing; exact Hq).
        destruct (atan_bound (b / a)); lra.
    + destruct (Rlt_dec 0 b); [lra|]. destruct (Rlt_dec b 0); lra.
Qed.

(** [Math.atan2] only sees the direction of a point. *)
Lemma Math_atan2_scale (c b a : R) :
  0 < c -> Math_atan2 (c * b) (c * a) = Math_atan2 b a.
Proof.
  intros Hc. unfold Math_atan2.
  destruct (Rlt_dec 0 a) as [Ha | Ha].
  - destruct (Rlt_dec 0 (c * a)) as [_ | H]; [|nra].
    f_equal. field. lra.
  - destruct (Rlt_dec 0 (c * a)) as [H | _]; [nra|].
    destruct (Rlt_dec a 0) as [Ha' | Ha'].
    + destruct (Rlt_dec (c * a) 0) as [_ | H]; [|nra].
      replace (c * b / (c * a)) with (b / a) by (field; lra).
      destruct (Rle_dec 0 b); destruct (Rle_dec 0 (c * b)); try reflexivity; nra.
    + destruct (Rlt_dec (c * a) 0) as [H | _]; [nra|].
      destruct (Rlt_dec 0 b); destruct (Rlt_dec 0 (c * b)); try nra;
      destruct (Rlt_dec b 0); destruct (Rlt_dec (c * b) 0); try reflexivity; nra.
Qed.

(** ** The normalisation loops *)

Lemma while_negative_done (fuel : nat) (p : R) :
  0 <= p -> while_negative fuel p = Ok p.
Proof.
  intros H. destruct fuel; simpl; destruct (Rlt_dec p 0); try reflexivity; lra.
Qed.

Lemma while_negative_once (fuel : nat) (p : R) :
  - (2 * PI) <= p < 0 -> while_negative (S fuel) p = Ok (p + 2 * PI).
Proof.
  intros [H1 H2]. simpl. destruct (Rlt_dec p 0); [|lra].
  unfold Math_PI. apply while_negative_done. lra.
Qed.

Lemma while_full_turn_done (fuel : nat) (p : R) :
  p < 2 * PI -> while_full_turn fuel p = Ok p.
Proof.
  intros H. unfold Math_PI.
  destruct fuel; simpl; unfold Math_PI; destruct (Rle_dec (2 * PI) p);
    try reflexivity; lra.
Qed.

(** One turn of the first loop is enough for any angle [Math.atan2] returns. *)
Lemma while_negative_total (fuel : nat) (p : R) :
  - (2 * PI) <= p ->
  exists q, while_negative (S fuel) p = Ok q /\ 0 <= q /\ (p < 2 * PI -> q < 2 * PI).
Proof.
  intros H. assert (HPI := PI_RGT_0).
  destruct (Rlt_le_dec p 0) as [Hn | Hn].
  - exists (p + 2 * PI). rewrite while_negative_once by lra.
    repeat split; lra.
  - exists p. rewrite while_negative_done by lra. repeat split; lra.
Qed.

(** The azimuth of a point in polar form, after normalisation. *)
Lemma azimuth_recovered (fuel : nat) (k a : R) :
  0 < k -> 0 <= a < 2 * PI ->
  while_negative (S fuel) (Math_atan2 (k * sin a) (k * cos a)) = Ok a.
Proof.
  intros Hk [Hlo Hhi]. assert (HPI := PI_RGT_0).
  destruct (Rle_lt_dec a PI) as [H | H].
  - rewrite Math_atan2_polar by lra. apply while_negative_done. exact Hlo.
  - replace (sin a) with (sin (a - 2 * PI))
      by (rewrite <- (sin_shift_2PI (a - 2 * PI)); f_equal; ring).
    replace (cos a) with (cos (a - 2 * PI))
      by (rewrite <- (cos_shift_2PI (a - 2 * PI)); f_equal; ring).
    rewrite Math_atan2_polar by lra.
    rewrite while_negative_once by lra. f_equal. ring.
Qed.

(** ** Clamping *)

Lemma clamp_id (lo hi q : R) :
  lo <= q <= hi -> Math_min hi (Math_max lo q) = q.
Proof.
  intros [H1 H2]. unfold Math_min, Math_max, Rmin, Rmax.
  destruct (Rle_dec lo q); [|lra].
  destruct (Rle_dec hi q); lra.
Qed.

Lemma clamp_bound (lo hi q : R) :
  lo <= hi -> lo <= Math_min hi (Math_max lo q) <= hi.
Proof.
  intros H. unfold Math_min, Math_max, Rmin, Rmax.
  destruct (Rle_dec lo q); destruct (Rle_dec hi q); destruct (Rle_dec hi lo); lra.
Qed.

Lemma clamp_bound' (lo hi q : R) :
  lo <= hi -> lo <= Math_max lo (Math_min hi q) <= hi.
Proof.
  intros H. unfold Math_min, Math_max, Rmin, Rmax.
  destruct (Rle_dec hi q); destruct (Rle_dec lo q); destruct (Rle_dec lo hi); lra.
Qed.

(** ** Unit vectors *)

Lemma norm_sphericalToCartesian (c : SphericalCoordinates) :
  x (sphericalToCartesian c) ^ 2 + y (sphericalToCartesian c) ^ 2
  + z (sphericalToCartesian c) ^ 2 = 1.
Proof.
  unfold sphericalToCartesian, Math_sin, Math_cos. simpl.
  assert (H1 := sin2_cos2 (theta c)). assert (H2 := sin2_cos2 (phi c)).
  unfold Rsqr in H1, H2. nra.
Qed.

Lemma acos_half (q : R) : 0 <= q <= 1 -> 0 <= acos q <= PI / 2.
Proof.
  intros Hq. assert (Hb := acos_bound q). split; [lra|].
  destruct (Rle_lt_dec (acos q) (PI / 2)) as [H | H]; [exact H|].
  assert (Hc : cos (acos q) < 0) by (apply cos_lt_0; lra).
  rewrite cos_acos in Hc by lra. lra.
Qed.

Lemma acos_lt_PI (q : R) : -1 < q <= 1 -> acos q < PI.
Proof.
  intros Hq. assert (Hb := acos_bound q).
  destruct (Req_dec (acos q) PI) as [H | H]; [|lra].
  assert (Hc : cos (acos q) = -1) by (rewrite H; apply cos_PI).
  rewrite cos_acos in Hc by lra. lra.
Qed.

(** On a unit vector, [cartesianToSpherical] takes no guard and no clamp. *)
Lemma cartesianToSpherical_unit (fuel : nat) (c : CartesianCoordinates) :
  x c ^ 2 + y c ^ 2 + z c ^ 2 = 1 ->
  cartesianToSpherical fuel c =
  (p <- while_negative fuel (Math_atan2 (y c) (x c)) ;;
   Ok {| theta := acos (z c); phi := p |}).
Proof.
  intros H. unfold cartesianToSpherical.
  rewrite Math_sqrt_ok by lra. rewrite H, sqrt_1. simpl.
  destruct (Req_dec_T 1 0) as [H0 | _]; [lra|].
  rewrite div_ok by lra. simpl.
  assert (Hz : -1 <= z c <= 1) by nra.
  replace (z c / 1) with (z c) by field.
  rewrite clamp_id by exact Hz.
  rewrite Math_acos_ok by exact Hz. reflexivity.
Qed.

(** What the Cartesian round trip returns, poles included. *)
Lemma cartesian_roundtrip_gen (fuel : nat) (th ph : R) :
  0 <= th <= PI ->
  exists p,
    cartesianToSpherical (S fuel)
      (sphericalToCartesian {| theta := th; phi := ph |})
    = Ok {| theta := th; phi := p |}
    /\ (0 < th < PI -> 0 <= ph < 2 * PI -> p = ph).
Proof.
  intros Hth. assert (HPI := PI_RGT_0).
  rewrite cartesianToSpherical_unit by apply norm_sphericalToCartesian.
  unfold sphericalToCartesian, Math_sin, Math_cos. cbn [x y z theta phi].
  rewrite acos_cos by exact Hth.
  destruct (Req_dec (sin th) 0) as [Hs | Hs].
  - exists 0. rewrite Hs, !Rmult_0_l. split.
    + unfold Math_atan2.
      destruct (Rlt_dec 0 0); [lra|].
      rewrite while_negative_done by lra. reflexivity.
    + intros Hin _. assert (0 < sin th) by (apply sin_gt_0; lra). lra.
  - assert (Hpos : 0 < sin th).
    { assert (0 <= sin th) by (apply sin_ge_0; lra). lra. }
    destruct (Rle_lt_dec 0 ph) as [H0 | H0];
      [destruct (Rlt_le_dec ph (2 * PI)) as [H1 | H1]|].
    + exists ph. rewrite azimuth_recovered by lra. split; [reflexivity | auto].
    + destruct (while_negative_total fuel
                 (Math_atan2 (sin th * sin ph) (sin th * cos ph))) as [p [Hp _]].
      { pose proof (Math_atan2_bound (sin th * sin ph) (sin th * cos ph)). lra. }
      exists p. rewrite Hp. split; [reflexivity | intros; lra].
    + destruct (while_negative_total fuel
                 (Math_atan2 (sin th * sin ph) (sin th * cos ph))) as [p [Hp _]].
      { pose proof (Math_atan2_bound (sin th * sin ph) (sin th * cos ph)). lra. }
      exists p. rewrite Hp. split; [reflexivity | intros; lra].
Qed.

(** ** amplitudesToSpherical *)

Lemma sum_squares_nonneg (a b : R) : 0 <= a ^ 2 + b ^ 2.
Proof. nra. Qed.

(** None of the partial operations of [amplitudesToSpherical] can fail:
    the square roots are taken of sums of squares, the division is guarded
    by [norm === 0] and the arc cosine by the clamp. *)
Lemma amplitudesToSpherical_eq (fuel : nat) (amp : ComplexAmplitude) :
  amplitudesToSpherical fuel amp =
  let alphaMag := sqrt (real (alpha amp) ^ 2 + imag (alpha amp) ^ 2) in
  let betaMag := sqrt (real (beta amp) ^ 2 + imag (beta amp) ^ 2) in
  let norm := sqrt (alphaMag ^ 2 + betaMag ^ 2) in
  if Req_dec_T norm 0 then Ok {| theta := 0; phi := 0 |}
  else
    p <- while_negative fuel
           (Math_atan2 (imag (beta amp)) (real (beta amp))
            - Math_atan2 (imag (alpha amp)) (real (alpha amp))) ;;
    p <- while_full_turn fuel p ;;
    Ok {| theta := 2 * acos (Math_min 1 (Math_max 0 (alphaMag / norm)));
          phi := p |}.
Proof.
  unfold amplitudesToSpherical.
  rewrite !Math_sqrt_ok by apply sum_squares_nonneg. cbn [bind].
  rewrite Math_sqrt_ok by apply sum_squares_nonneg. cbn [bind].
  cbv zeta.
  destruct (Req_dec_T _ 0) as [H0 | H0]; [reflexivity|].
  rewrite div_ok by exact H0. cbn [bind].
  rewrite Math_acos_ok.
  - reflexivity.
  - pose proof (clamp_bound 0 1
      (sqrt (real (alpha amp) ^ 2 + imag (alpha amp) ^ 2) /
       sqrt (sqrt (real (alpha amp) ^ 2 + imag (alpha amp) ^ 2) ^ 2 +
             sqrt (real (beta amp) ^ 2 + imag (beta amp) ^ 2) ^ 2))). lra.
Qed.


Lemma sqrt_scale (c a b : R) :
  0 <= c -> sqrt ((c * a) ^ 2 + (c * b) ^ 2) = c * sqrt (a ^ 2 + b ^ 2).
Proof.
  intros Hc.
  replace ((c * a) ^ 2 + (c * b) ^ 2) with (c ^ 2 * (a ^ 2 + b ^ 2)) by ring.
  rewrite sqrt_mult by nra. rewrite sqrt_pow2 by exact Hc. reflexivity.
Qed.

Lemma amplitudesToSpherical_rescale (fuel : nat) (c : R) (amp : ComplexAmplitude) :
  0 < c ->
  amplitudesToSpherical fuel (rescale c amp) = amplitudesToSpherical fuel amp.
Proof.
  intros Hc. rewrite !amplitudesToSpherical_eq. cbv zeta.
  unfold rescale. cbn [alpha beta real imag].
  rewrite !sqrt_scale by lra.
  rewrite !Math_atan2_scale by exact Hc.
  set (am := sqrt (real (alpha amp) ^ 2 + imag (alpha amp) ^ 2)).
  set (bm := sqrt (real (beta amp) ^ 2 + imag (beta amp) ^ 2)).
  set (n := sqrt (am ^ 2 + bm ^ 2)).
  destruct (Req_dec_T (c * n) 0) as [H | H]; destruct (Req_dec_T n 0) as [H' | H'].
  - reflexivity.
  - exfalso. apply H'. nra.
  - exfalso. apply H. rewrite H'. ring.
  - replace (c * am / (c * n)) with (am / n) by (field; lra). reflexivity.
Qed.

(** ** The amplitude round trip *)

Lemma amplitude_roundtrip (fuel : nat) (th ph : R) :
  0 < th < PI -> 0 <= ph < 2 * PI ->
  amplitudesToSpherical (S fuel)
    (sphericalToAmplitudes {| theta := th; phi := ph |})
  = Ok {| theta := th; phi := ph |}.
Proof.
  intros Hth Hph. assert (HPI := PI_RGT_0).
  assert (Hc : 0 < cos (th / 2)) by (apply cos_gt_0; lra).
  assert (Hs : 0 < sin (th / 2)) by (apply sin_gt_0; lra).
  assert (Hsc := sin2_cos2 (th / 2)). unfold Rsqr in Hsc.
  assert (Hph2 := sin2_cos2 ph). unfold Rsqr in Hph2.
  rewrite amplitudesToSpherical_eq. cbv zeta.
  unfold sphericalToAmplitudes, Math_sin, Math_cos.
  cbn [alpha beta real imag theta phi].
  replace (cos (th / 2) ^ 2 + 0 ^ 2) with ((cos (th / 2)) ^ 2) by ring.
  rewrite sqrt_pow2 by lra.
  replace ((sin (th / 2) * cos ph) ^ 2 + (sin (th / 2) * sin ph) ^ 2)
    with ((sin (th / 2)) ^ 2) by nra.
  rewrite sqrt_pow2 by lra.
  replace (cos (th / 2) ^ 2 + sin (th / 2) ^ 2) with 1 by nra.
  rewrite sqrt_1.
  destruct (Req_dec_T 1 0) as [H | _]; [lra|].
  replace (cos (th / 2) / 1) with (cos (th / 2)) by field.
  rewrite clamp_id by (pose proof (COS_bound (th / 2)); lra).
  rewrite acos_cos by lra.
  replace (Math_atan2 0 (cos (th / 2))) with 0.
  2:{ unfold Math_atan2. destruct (Rlt_dec 0 (cos (th / 2))); [|lra].
      unfold Rdiv. rewrite Rmult_0_l, atan_0. reflexivity. }
  rewrite Rminus_0_r.
  rewrite azimuth_recovered by lra. cbn [bind].
  rewrite while_full_turn_done by lra. cbn [bind].
  f_equal. f_equal. field.
Qed.

(** ** cartesianToSpherical on arbitrary vectors *)

Lemma cartesianToSpherical_range (fuel : nat) (cart : CartesianCoordinates) :
  exists s, cartesianToSpherical (S fuel) cart = Ok s
            /\ 0 <= theta s <= PI /\ 0 <= phi s < 2 * PI.
Proof.
  assert (HPI := PI_RGT_0). unfold cartesianToSpherical.
  rewrite Math_sqrt_ok by nra. cbn [bind].
  destruct (Req_dec_T _ 0) as [H0 | H0].
  - eexists; split; [reflexivity|]. simpl. lra.
  - rewrite div_ok by exact H0. cbn [bind].
    match goal with |- context [Math_acos ?a] =>
      assert (Hc : -1 <= a <= 1) by (apply clamp_bound; lra);
      rewrite (Math_acos_ok a Hc); pose proof (acos_bound a) end.
    cbn [bind].
    pose proof (Math_atan2_bound (y cart) (x cart)) as Hb.
    destruct (while_negative_total fuel (Math_atan2 (y cart) (x cart)))
      as [q [Hq [Hq0 Hq1]]]; [lra|].
    rewrite Hq. cbn [bind]. eexists; split; [reflexivity|].
    cbn [theta phi]. lra.
Qed.

(** ** slerp *)

Lemma dot_self (c : SphericalCoordinates) :
  dot (sphericalToCartesian c) (sphericalToCartesian c) = 1.
Proof.
  pose proof (norm_sphericalToCartesian c) as H. unfold dot. lra.
Qed.

Lemma slerp_same (fuel : nat) (p : SphericalCoordinates) (t : R) :
  slerp fuel p p t = Ok p.
Proof.
  unfold slerp. cbv zeta. rewrite dot_self.
  replace (Math_max (-1) (Math_min 1 1)) with 1
    by (unfold Math_max, Math_min, Rmax, Rmin;
        destruct (Rle_dec 1 1); destruct (Rle_dec (-1) 1); lra).
  rewrite Math_acos_ok by lra. cbn [bind]. rewrite acos_1.
  unfold Math_abs. rewrite Rabs_R0.
  destruct (Rlt_dec 0 (1 / 10000)) as [_ | H]; [|lra].
  destruct p as [th ph]. cbn [theta phi]. f_equal. f_equal; ring.
Qed.

(** On the great-circle branch, away from antipodal points, the angle
    [omega] lies strictly between [0] and [PI], so its sine is positive. *)
Lemma omega_sin_pos (d : R) :
  -1 < d ->
  ~ Math_abs (acos (Math_max (-1) (Math_min 1 d))) < 1 / 10000 ->
  0 < sin (acos (Math_max (-1) (Math_min 1 d))).
Proof.
  intros Hd Hguard.
  set (cd := Math_max (-1) (Math_min 1 d)) in *.
  assert (Hcd : -1 < cd <= 1).
  { unfold cd, Math_max, Math_min, Rmax, Rmin.
    destruct (Rle_dec 1 d); destruct (Rle_dec (-1) 1);
      destruct (Rle_dec (-1) d); lra. }
  pose proof (acos_bound cd) as Hb. pose proof (acos_lt_PI cd Hcd) as Hlt.
  unfold Math_abs in Hguard. rewrite Rabs_right in Hguard by lra.
  apply sin_gt_0; lra.
Qed.

Lemma slerp_start (fuel : nat) (s e : SphericalCoordinates) :
  0 <= theta s <= PI ->
  -1 < dot (sphericalToCartesian s) (sphericalToCartesian e) ->
  exists r, slerp (S fuel) s e 0 = Ok r
            /\ theta r = theta s
            /\ (0 < theta s < PI -> 0 <= phi s < 2 * PI -> r = s).
Proof.
  intros Hth Hdot. unfold slerp. cbv zeta.
  rewrite Math_acos_ok by (apply clamp_bound'; lra). cbn [bind].
  destruct (Rlt_dec _ (1 / 10000)) as [Hg | Hg].
  - eexists; split; [reflexivity|]. destruct s as [th ph]. cbn [theta phi].
    split; [ring|]. intros _ _. f_equal; ring.
  - pose proof (omega_sin_pos _ Hdot Hg) as Hsin.
    set (omega := acos _) in *. unfold Math_sin.
    rewrite !div_ok by lra. cbn [bind].
    replace (sin ((1 - 0) * omega) / sin omega) with 1
      by (replace ((1 - 0) * omega) with omega by ring; field; lra).
    replace (sin (0 * omega) / sin omega) with 0
      by (rewrite Rmult_0_l, sin_0; field; lra).
    destruct s as [th ph]. cbn [theta phi] in *.
    destruct (cartesian_roundtrip_gen fuel th ph Hth) as [p [Hp Hin]].
    match goal with |- context [cartesianToSpherical _ ?c] =>
      replace c with (sphericalToCartesian {| theta := th; phi := ph |})
        by (unfold sphericalToCartesian; cbn [x y z theta phi]; f_equal; ring)
    end.
    rewrite Hp. eexists; split; [reflexivity|]. cbn [theta].
    split; [reflexivity|]. intros H1 H2. rewrite (Hin H1 H2). reflexivity.
Qed.

Lemma slerp_end (fuel : nat) (s e : SphericalCoordinates) :
  0 <= theta e <= PI ->
  -1 < dot (sphericalToCartesian s) (sphericalToCartesian e) ->
  exists r, slerp (S fuel) s e 1 = Ok r
            /\ theta r = theta e
            /\ (0 < theta e < PI -> 0 <= phi e < 2 * PI -> r = e).
Proof.
  intros Hth Hdot. unfold slerp. cbv zeta.
  rewrite Math_acos_ok by (apply clamp_bound'; lra). cbn [bind].
  destruct (Rlt_dec _ (1 / 10000)) as [Hg | Hg].
  - eexists; split; [reflexivity|]. destruct e as [th ph]. cbn [theta phi].
    split; [ring|]. intros _ _. f_equal; ring.
  - pose proof (omega_sin_pos _ Hdot Hg) as Hsin.
    set (omega := acos _) in *. unfold Math_sin.
    rewrite !div_ok by lra. cbn [bind].
    replace (sin ((1 - 1) * omega) / sin omega) with 0
      by (replace ((1 - 1) * omega) with 0 by ring; rewrite sin_0; field; lra).
    replace (sin (1 * omega) / sin omega) with 1
      by (rewrite Rmult_1_l; field; lra).
    destruct e as [th ph]. cbn [theta phi] in *.
    destruct (cartesian_roundtrip_gen fuel th ph Hth) as [p [Hp Hin]].
    match goal with |- context [cartesianToSpherical _ ?c] =>
      replace c with (sphericalToCartesian {| theta := th; phi := ph |})
        by (unfold sphericalToCartesian; cbn [x y z theta phi]; f_equal; ring)
    end.
    rewrite Hp. eexists; split; [reflexivity|]. cbn [theta].
    split; [reflexivity|]. intros H1 H2. rewrite (Hin H1 H2). reflexivity.
Qed.

(** ** The animation driver *)

Lemma Req_b_true (a b : R) : Req_b a b = true <-> a = b.
Proof. unfold Req_b. destruct (Req_dec_T a b); split; congruence. Qed.

Lemma Req_b_false (a b : R) : Req_b a b = false <-> a <> b.
Proof. unfold Req_b. destruct (Req_dec_T a b); split; congruence. Qed.

Lemma same_deps_target (d0 : Deps) (B : SphericalCoordinates) (cfg : AnimationConfig) :
  same_deps d0 (deps_of B cfg) = true ->
  d_theta d0 = theta B /\ d_phi d0 = phi B.
Proof.
  unfold same_deps. intros H.
  repeat (apply andb_prop in H; destruct H as [H ?]).
  split; apply Req_b_true; assumption.
Qed.

(** The clean-up function, when there is one, empties the queue. *)
Lemma cleanup_clears (w : World) :
  one_frame w ->
  let w1 := if cleanup w then cancel_current w else w in
  frames w1 = [] /\ hook w1 = hook w /\ next_frame w1 = next_frame w
  /\ log w1 = log w.
Proof.
  intros [Hf | (id & cl & Hf & Href & _ & Hc)]; cbv zeta.
  - destruct (cleanup w); [|auto].
    unfold cancel_current. destruct (animationRef (hook w)); [|auto].
    unfold cancelAnimationFrame; cbn. rewrite Hf. auto.
  - rewrite Hc. unfold cancel_current. rewrite Href.
    unfold cancelAnimationFrame; cbn. rewrite Hf. cbn.
    rewrite Pos.eqb_refl. cbn. auto.
Qed.

(** What a render does when the target differs from the tracked one and
    animation is enabled. *)
Lemma render_supersedes (w : World) (B : SphericalCoordinates)
    (cfg : AnimationConfig) :
  Inv w ->
  theta (prevTargetRef (hook w)) <> theta B
  \/ phi (prevTargetRef (hook w)) <> phi B ->
  cfg_enabled cfg = true ->
  render B cfg w =
  {| hook :=
       {| currentState := currentState (hook w);
          animationRef := Some (next_frame w);
          startStateRef := currentState (hook w);
          startTimeRef := None;
          isFirstRender := false;
          prevTargetRef := B |};
     frames := [(next_frame w,
                 {| cl_target := B; cl_duration := cfg_duration cfg;
                    cl_easing := cfg_easing cfg |})];
     next_frame := Pos.succ (next_frame w);
     cleanup := true;
     deps := Some (deps_of B cfg);
     log := log w ++ [AnimationStart B] |}.
Proof.
  intros (Hfirst & (d0 & Hd & Hdt & Hdp) & Hone) Hdiff Hen.
  destruct (cleanup_clears w Hone) as (Hf1 & Hh1 & Hn1 & Hl1).
  unfold render. rewrite Hd.
  assert (Hsame : same_deps d0 (deps_of B cfg) = false).
  { destruct (same_deps d0 (deps_of B cfg)) eqn:E; [|reflexivity].
    apply same_deps_target in E. destruct E as [E1 E2].
    destruct Hdiff; congruence. }
  rewrite Hsame.
  assert (Hchg : negb (Req_b (theta (prevTargetRef (hook w))) (theta B))
                 || negb (Req_b (phi (prevTargetRef (hook w))) (phi B)) = true).
  { destruct Hdiff as [H | H]; apply Req_b_false in H; rewrite H;
      [reflexivity | apply orb_true_r]. }
  rewrite Hchg.
  set (w1 := if cleanup w then cancel_current w else w) in *.
  unfold effect. rewrite Hh1, Hfirst, Hen. cbn [negb].
  unfold cancel_current, cancelAnimationFrame, requestAnimationFrame, emit,
    set_hook, set_cleanup, set_deps.
  cbn [hook frames next_frame cleanup deps log animationRef].
  destruct (animationRef (hook w));
    cbn [hook frames next_frame cleanup deps log animationRef currentState];
    rewrite ?Hf1, ?Hn1, ?Hl1; cbn [filter app]; rewrite ?Hfirst; reflexivity.
Qed.

Lemma Inv_mount (targetState : SphericalCoordinates) (config : AnimationConfig) :
  Inv (mount targetState config).
Proof.
  unfold mount, render. cbn [deps cleanup hook]. unfold effect.
  cbn [hook isFirstRender]. unfold Inv, tracked_deps, one_frame.
  cbn. split; [reflexivity|]. split; [|left; reflexivity].
  eexists; split; [reflexivity|]. cbn. auto.
Qed.

Lemma Inv_render (targetState : SphericalCoordinates) (config : AnimationConfig)
    (w : World) :
  Inv w -> Inv (render targetState config w).
Proof.
  intros HI.
  destruct (Req_dec (theta (prevTargetRef (hook w))) (theta targetState)) as [Et | Et];
    [destruct (Req_dec (phi (prevTargetRef (hook w))) (phi targetState)) as [Ep | Ep]|].
  - (* the target did not change *)
    destruct HI as (Hfirst & (d0 & Hd & Hdt & Hdp) & Hone).
    destruct (cleanup_clears w Hone) as (Hf1 & Hh1 & Hn1 & Hl1).
    unfold render. rewrite Hd.
    destruct (same_deps d0 (deps_of targetState config));
      [repeat split; [exact Hfirst | exists d0; auto | exact Hone]|].
    apply Req_b_true in Et, Ep. rewrite Et, Ep. cbn [negb orb].
    set (w1 := if cleanup w then cancel_current w else w) in *.
    unfold effect. rewrite Hh1, Hfirst. cbn [negb].
    unfold Inv, tracked_deps, one_frame, set_deps, set_cleanup.
    cbn [hook frames cleanup deps]. rewrite Hh1.
    apply Req_b_true in Et, Ep.
    split; [first [exact Hfirst | reflexivity]|]. split; [|left; exact Hf1].
    eexists; split; [reflexivity|]. cbn. auto.
  - destruct (cfg_enabled config) eqn:Hen.
    + rewrite render_supersedes by auto.
      unfold Inv, tracked_deps, one_frame. cbn.
      split; [reflexivity|]. split.
      * eexists; split; [reflexivity|]. cbn. auto.
      * right. do 2 eexists. repeat split.
    + destruct HI as (Hfirst & (d0 & Hd & Hdt & Hdp) & Hone).
      destruct (cleanup_clears w Hone) as (Hf1 & Hh1 & Hn1 & Hl1).
      unfold render. rewrite Hd.
      destruct (same_deps d0 (deps_of targetState config)) eqn:E.
      { apply same_deps_target in E. destruct E. congruence. }
      apply Req_b_false in Ep. rewrite Ep. rewrite orb_true_r.
      set (w1 := if cleanup w then cancel_current w else w) in *.
      unfold effect. rewrite Hh1, Hfirst, Hen. cbn [negb].
      unfold Inv, tracked_deps, one_frame, set_deps, set_cleanup, set_hook.
      cbn. split; [first [exact Hfirst | reflexivity]|]. split; [|left; exact Hf1].
      eexists; split; [reflexivity|]. cbn. auto.
  - destruct (cfg_enabled config) eqn:Hen.
    + rewrite render_supersedes by auto.
      unfold Inv, tracked_deps, one_frame. cbn.
      split; [reflexivity|]. split.
      * eexists; split; [reflexivity|]. cbn. auto.
      * right. do 2 eexists. repeat split.
    + destruct HI as (Hfirst & (d0 & Hd & Hdt & Hdp) & Hone).
      destruct (cleanup_clears w Hone) as (Hf1 & Hh1 & Hn1 & Hl1).
      unfold render. rewrite Hd.
      destruct (same_deps d0 (deps_of targetState config)) eqn:E.
      { apply same_deps_target in E. destruct E. congruence. }
      apply Req_b_false in Et. rewrite Et. cbn [negb orb].
      set (w1 := if cleanup w then cancel_current w else w) in *.
      unfold effect. rewrite Hh1, Hfirst, Hen. cbn [negb].
      unfold Inv, tracked_deps, one_frame, set_deps, set_cleanup, set_hook.
      cbn. split; [first [exact Hfirst | reflexivity]|]. split; [|left; exact Hf1].
      eexists; split; [reflexivity|]. cbn. auto.
Qed.

Lemma Inv_frame (fuel : nat) (timestamp : R) (w : World) :
  Inv w -> Inv (frame fuel timestamp w).
Proof.
  intros (Hfirst & (d0 & Hd & Hdt & Hdp) & Hone).
  unfold frame.
  destruct Hone as [Hf | (id & cl & Hf & Href & Hcl & Hc)]; rewrite Hf; cbn [fold_left].
  - unfold Inv, tracked_deps, one_frame. cbn.
    split; [first [exact Hfirst | reflexivity]|]. split; [exists d0; auto | left; reflexivity].
  - unfold animate. cbn [snd hook]. 
    destruct (progress_lt_1 _ _);
      unfold Inv, tracked_deps, one_frame, requestAnimationFrame, emit, set_hook;
      cbn; (split; [first [exact Hfirst | reflexivity]|]); (split; [exists d0; auto|]).
    + right. do 2 eexists. repeat split; assumption.
    + left. reflexivity.
Qed.

Lemma reachable_Inv (fuel : nat) (w : World) : reachable fuel w -> Inv w.
Proof.
  induction 1; auto using Inv_mount, Inv_render, Inv_frame.
Qed.

(** A closure for [B] keeps the driver on [B]. *)
Lemma animate_driving (fuel : nat) (B : SphericalCoordinates)
    (s0 : result SphericalCoordinates) (lg : list Event)
    (cl : Closure) (timestamp : R) (w : World) :
  cl_target cl = B -> driving B s0 lg w ->
  driving B s0 lg (animate fuel cl timestamp w).
Proof.
  intros Hcl (Hs & Hfr & ends & Hlog & Hends). unfold animate.
  destruct (progress_lt_1 _ _);
    unfold driving, requestAnimationFrame, emit, set_hook; cbn.
  - split; [exact Hs|]. split.
    + intros e He. apply in_app_or in He. destruct He as [He | [<- | []]];
        [apply Hfr; exact He | exact Hcl].
    + exists ends. auto.
  - split; [exact Hs|]. split; [exact Hfr|].
    exists (ends ++ [AnimationEnd (cl_target cl)]). split.
    + rewrite Hlog, app_assoc. reflexivity.
    + intros ev Hev. apply in_app_or in Hev. destruct Hev as [Hev | [<- | []]];
        [auto | rewrite Hcl; reflexivity].
Qed.

Lemma frame_driving (fuel : nat) (B : SphericalCoordinates)
    (s0 : result SphericalCoordinates) (lg : list Event)
    (timestamp : R) (w : World) :
  driving B s0 lg w -> driving B s0 lg (frame fuel timestamp w).
Proof.
  intros (Hs & Hfr & Hlog). unfold frame.
  set (w0 := {| hook := hook w; frames := []; next_frame := next_frame w;
                cleanup := cleanup w; deps := deps w; log := log w |}).
  assert (H0 : driving B s0 lg w0).
  { unfold driving, w0; cbn. split; [exact Hs|]. split; [intros e []| exact Hlog]. }
  clearbody w0. revert w0 H0.
  induction (frames w) as [| e l IH]; intros w0 H0; cbn [fold_left].
  - exact H0.
  - apply IH.
    + intros e' He'. apply Hfr. right. exact He'.
    + apply animate_driving; [apply Hfr; left; reflexivity | exact H0].
Qed.

Lemma animate_deps (fuel : nat) (cl : Closure) (timestamp : R) (w : World) :
  deps (animate fuel cl timestamp w) = deps w.
Proof.
  unfold animate. destruct (progress_lt_1 _ _); reflexivity.
Qed.

Lemma frame_deps (fuel : nat) (timestamp : R) (w : World) :
  deps (frame fuel timestamp w) = deps w.
Proof.
  unfold frame.
  set (w0 := {| hook := hook w; frames := []; next_frame := next_frame w;
                cleanup := cleanup w; deps := deps w; log := log w |}).
  change (deps w) with (deps w0). generalize w0.
  induction (frames w) as [| e l IH]; intros w1; cbn [fold_left].
  - reflexivity.
  - rewrite IH. apply animate_deps.
Qed.

Lemma same_deps_refl (d : Deps) : same_deps d d = true.
Proof.
  unfold same_deps.
  rewrite !(proj2 (Req_b_true _ _) eq_refl), eqb_reflx.
  destruct (d_easing d); reflexivity.
Qed.

(** A render with the props of the last effect run changes nothing. *)
Lemma render_same_props (B : SphericalCoordinates) (cfg : AnimationConfig)
    (w : World) :
  deps w = Some (deps_of B cfg) -> render B cfg w = w.
Proof.
  intros H. unfold render. rewrite H, same_deps_refl. reflexivity.
Qed.

Lemma run_ticks_driving (fuel : nat) (B : SphericalCoordinates)
    (cfg : AnimationConfig) (s0 : result SphericalCoordinates)
    (lg : list Event) (ticks : list Tick) (w : World) :
  deps w = Some (deps_of B cfg) ->
  driving B s0 lg w -> driving B s0 lg (run_ticks fuel B cfg ticks w).
Proof.
  revert w. unfold run_ticks.
  induction ticks as [| [ts |] l IH]; intros w Hd H; cbn [fold_left tick].
  - exact H.
  - apply IH; [rewrite frame_deps; exact Hd | apply frame_driving; exact H].
  - rewrite render_same_props by exact Hd. apply IH; assumption.
Qed.

(** The first frame of a fresh animation takes the time it is given as the
    start, so it interpolates at elapsed time [0]. *)
Lemma first_frame (fuel : nat) (timestamp : R) (w : World) (id : positive)
    (cl : Closure) :
  frames w = [(id, cl)] -> startTimeRef (hook w) = None ->
  currentState (hook (frame fuel timestamp w)) =
  (p <- progress_of 0 (cl_duration cl) ;;
   s <- startStateRef (hook w) ;;
   slerp fuel s (cl_target cl) (easingFunctions (cl_easing cl) p)).
Proof.
  intros Hf Ht. unfold frame. rewrite Hf. cbn [fold_left snd].
  unfold animate. cbn [hook]. rewrite Ht, Rminus_diag.
  destruct (progress_lt_1 _ _); reflexivity.
Qed.

Lemma slerp_range (fuel : nat) (s e : SphericalCoordinates) (t : R) :
  0 <= theta s <= PI -> 0 <= phi s < 2 * PI ->
  0 <= theta e <= PI -> 0 <= phi e < 2 * PI ->
  0 <= t <= 1 ->
  -1 < dot (sphericalToCartesian s) (sphericalToCartesian e) ->
  exists r, slerp (S fuel) s e t = Ok r
            /\ 0 <= theta r <= PI /\ 0 <= phi r < 2 * PI.
Proof.
  intros Hts Hps Hte Hpe Ht Hdot. unfold slerp. cbv zeta.
  rewrite Math_acos_ok by (apply clamp_bound'; lra). cbn [bind].
  destruct (Rlt_dec _ (1 / 10000)) as [Hg | Hg].
  - eexists; split; [reflexivity|]. cbn [theta phi].
    split; [nra|]. split; [nra|].
    destruct (Req_dec t 0) as [-> | Ht0]; [lra|].
    assert (0 < t * (2 * PI - phi e)) by (apply Rmult_lt_0_compat; lra).
    assert (0 <= (1 - t) * (2 * PI - phi s)) by (apply Rmult_le_pos; lra).
    lra.
  - pose proof (omega_sin_pos _ Hdot Hg) as Hsin. unfold Math_sin.
    rewrite !div_ok by lra. cbn [bind].
    apply cartesianToSpherical_range.
Qed.

(** ** Ranges *)

Lemma pow2_ge_1 (n : nat) : 1 <= 2 ^ n.
Proof. apply pow_R1_Rle. lra. Qed.

Lemma inv_pow2_le (m n : nat) : (m <= n)%nat -> / 2 ^ n <= / 2 ^ m.
Proof.
  intros H. apply Rinv_le_contravar.
  - apply pow_lt. lra.
  - apply Rle_pow; [lra | exact H].
Qed.

Lemma min_normal_bounds : 0 < min_normal <= / 1024.
Proof.
  unfold min_normal. split.
  - apply Rinv_0_lt_compat, pow_lt. lra.
  - replace 1024 with (2 ^ 10) by (simpl; ring). apply inv_pow2_le. lia.
Qed.

Lemma well_scaled_moderate (q : R) : / 1024 <= q <= 1024 -> well_scaled q.
Proof.
  intros [H1 H2]. unfold well_scaled.
  assert (E : 2 ^ 10 = 1024) by (simpl; ring).
  split.
  - apply Rle_trans with (/ 2 ^ 10); [apply inv_pow2_le; lia|].
    rewrite E. exact H1.
  - apply Rle_trans with (2 ^ 10); [rewrite E; exact H2|].
    apply Rle_pow; [lra | lia].
Qed.

Lemma safe_factor_moderate (c : R) : / 1024 <= c <= 1024 -> safe_factor c.
Proof.
  intros [H1 H2]. unfold safe_factor.
  assert (E : 2 ^ 10 = 1024) by (simpl; ring).
  split.
  - apply Rle_trans with (/ 2 ^ 10); [apply inv_pow2_le; lia|].
    rewrite E. exact H1.
  - apply Rle_trans with (2 ^ 10); [rewrite E; exact H2|].
    apply Rle_pow; [lra | lia].
Qed.

Lemma in_range_moderate (a : R) : a = 0 \/ / 1024 <= a <= 1024 -> in_range a.
Proof.
  intros [H | [H1 H2]]; [left; exact H | right].
  assert (E : 2 ^ 10 = 1024) by (simpl; ring).
  rewrite Rabs_right by lra.
  split.
  - apply Rle_trans with (/ 2 ^ 10); [apply inv_pow2_le; lia|].
    rewrite E. exact H1.
  - apply Rle_trans with (2 ^ 10); [rewrite E; exact H2|].
    apply Rle_pow; [lra | lia].
Qed.

Lemma well_scaled_pos (q : R) : well_scaled q -> 0 < q.
Proof.
  intros [H _]. apply Rlt_le_trans with (/ 2 ^ 1000); [|exact H].
  apply Rinv_0_lt_compat, pow_lt. lra.
Qed.

Lemma safe_factor_pos (c : R) : safe_factor c -> 0 < c.
Proof.
  intros [H _]. apply Rlt_le_trans with (/ 2 ^ 400); [|exact H].
  apply Rinv_0_lt_compat, pow_lt. lra.
Qed.

(** In exact arithmetic the divisor of [slerp] is zero only for opposite
    points. *)
Lemma defined_not_opposite (s e : SphericalCoordinates) :
  great_circle_defined s e ->
  -1 < dot (sphericalToCartesian s) (sphericalToCartesian e).
Proof.
  unfold great_circle_defined. cbv zeta. intros H.
  destruct (Rlt_le_dec (-1) (dot (sphericalToCartesian s) (sphericalToCartesian e)))
    as [Hd | Hd]; [exact Hd | exfalso].
  assert (Ec : Math_max (-1)
                 (Math_min 1 (dot (sphericalToCartesian s) (sphericalToCartesian e)))
               = -1).
  { unfold Math_max, Math_min, Rmax, Rmin.
    destruct (Rle_dec 1 (dot (sphericalToCartesian s) (sphericalToCartesian e)));
      destruct (Rle_dec (-1) 1);
      destruct (Rle_dec (-1) (dot (sphericalToCartesian s) (sphericalToCartesian e)));
      lra. }
  rewrite Ec in H.
  replace (acos (-1)) with PI in H
    by (replace (-1) with (- (1)) by ring; rewrite acos_opp, acos_1; ring).
  assert (HPI := PI2_1).
  destruct H as [H | H].
  - unfold Math_abs in H. rewrite Rabs_right in H; lra.
  - apply H. unfold Math_sin. apply sin_PI.
Qed.

(** * The claims *)

(** C1, as stated, fails on binary64 next to the north pole: for
    [theta = 5e-324], which is not a pole, and [phi = 1], the products
    [sin (theta) * cos (phi)] and [sin (theta) * sin (phi)] both round to
    [5e-324], and the round trip returns [phi = PI / 4], more than [1e-6]
    from [1]. *)
Lemma roundtrip_near_pole_loses_phi :
  exists r,
    Float64.cartesianToSpherical Float64.engine 1
      (Float64.sphericalToCartesian Float64.engine_trig Float64.near_north)
    = Ok r
    /\ PrimFloat.ltb Float64.tolerance
         (PrimFloat.abs
            (PrimFloat.sub (Float64.phi r) (Float64.phi Float64.near_north)))
       = true
    /\ PrimFloat.ltb PrimFloat.zero (Float64.theta Float64.near_north) = true
    /\ PrimFloat.ltb (Float64.theta Float64.near_north) Float64.Math_PI = true.
Proof.
  eexists. split; [vm_compute; reflexivity|].
  vm_compute. repeat split.
Qed.

(** C1, amended.  Cartesian round trip: for [theta] in [[0, PI]] and [phi]
    in [[0, 2 PI)], [cartesianToSpherical (sphericalToCartesian {theta,
    phi})] answers, with the same [theta]; when [theta] is at least the
    smallest normal number [2^-1022] and is not [PI], it answers the
    original pair, so the two differ by less than [1e-6]; nearer to the
    north pole, and at the poles, the [phi] returned is left open. *)
Theorem cartesian_spherical_roundtrip (fuel : nat) (th ph : R) :
  0 <= th <= PI -> 0 <= ph < 2 * PI ->
  exists r,
    cartesianToSpherical (S fuel)
      (sphericalToCartesian {| theta := th; phi := ph |}) = Ok r
    /\ theta r = th
    /\ (min_normal <= th -> th <> PI ->
        r = {| theta := th; phi := ph |}
        /\ Rabs (theta r - th) <= 1 / 1000000
        /\ Rabs (phi r - ph) <= 1 / 1000000).
Proof.
  intros Hth Hph.
  destruct (cartesian_roundtrip_gen fuel th ph Hth) as [p [Hp Hin]].
  eexists; split; [exact Hp|]. cbn [theta phi]. split; [reflexivity|].
  intros H0 HPI. pose proof min_normal_bounds as [Hm _].
  rewrite Hin by lra.
  split; [reflexivity|].
  rewrite !Rminus_diag, Rabs_R0. lra.
Qed.

Lemma cartesian_spherical_roundtrip_witness :
  (0 <= PI / 2 <= PI /\ 0 <= 0 < 2 * PI)
  /\ exists r,
       cartesianToSpherical 1
         (sphericalToCartesian {| theta := PI / 2; phi := 0 |}) = Ok r
       /\ theta r = PI / 2
       /\ (min_normal <= PI / 2 -> PI / 2 <> PI ->
           r = {| theta := PI / 2; phi := 0 |}
           /\ Rabs (theta r - PI / 2) <= 1 / 1000000
           /\ Rabs (phi r - 0) <= 1 / 1000000).
Proof.
  assert (HPI := PI_RGT_0).
  split; [lra|].
  apply (cartesian_spherical_roundtrip 0 (PI / 2) 0); lra.
Defined.

(** C2, as stated, fails on binary64 next to the north pole: for
    [theta = 5e-324] and [phi = 1] the half angle [theta / 2] rounds to
    [0], [beta] is the zero amplitude, and the round trip returns
    [{theta: 0, phi: 0}]. *)
Lemma amplitude_roundtrip_near_pole_loses_phi :
  exists r,
    Float64.amplitudesToSpherical Float64.engine 1
      (Float64.sphericalToAmplitudes Float64.engine_trig Float64.near_north)
    = Ok r
    /\ PrimFloat.ltb Float64.tolerance
         (PrimFloat.abs
            (PrimFloat.sub (Float64.phi r) (Float64.phi Float64.near_north)))
       = true
    /\ PrimFloat.ltb PrimFloat.zero (Float64.theta Float64.near_north) = true
    /\ PrimFloat.ltb (Float64.theta Float64.near_north) Float64.Math_PI = true.
Proof.
  eexists. split; [vm_compute; reflexivity|].
  vm_compute. repeat split.
Qed.

(** C2, amended.  Amplitude round trip: for a pair whose [theta] is at
    least twice the smallest normal number [2^-1022] (so that the half
    angle is a normal number) and below [PI], with [phi] in [[0, 2 PI)],
    [amplitudesToSpherical (sphericalToAmplitudes c)] returns [c]. *)
Theorem amplitudes_spherical_roundtrip (fuel : nat) (c : SphericalCoordinates) :
  2 * min_normal <= theta c -> theta c < PI -> 0 <= phi c < 2 * PI ->
  amplitudesToSpherical (S fuel) (sphericalToAmplitudes c) = Ok c.
Proof.
  intros Hlo Hhi Hph. pose proof min_normal_bounds as [Hm _].
  destruct c as [th ph]. cbn [theta phi] in *.
  apply amplitude_roundtrip; [lra | exact Hph].
Qed.

Lemma amplitudes_spherical_roundtrip_witness :
  (2 * min_normal <= PI / 2 /\ PI / 2 < PI /\ 0 <= 0 < 2 * PI)
  /\ amplitudesToSpherical 1
       (sphericalToAmplitudes {| theta := PI / 2; phi := 0 |})
     = Ok {| theta := PI / 2; phi := 0 |}.
Proof.
  assert (HPI := PI2_1). pose proof min_normal_bounds as [Hm0 Hm1].
  assert (H : 2 * min_normal <= PI / 2) by lra.
  split; [repeat split; lra|].
  apply (amplitudes_spherical_roundtrip 0 {| theta := PI / 2; phi := 0 |});
    cbn [theta phi]; lra.
Defined.

(** C3, as stated, fails: starting at the north pole written with
    [phi = 1], [slerp] towards a point of the equator returns, at [t = 0],
    the pole with [phi = 0]: the same point of the sphere, but not the
    pair [s]. *)
Lemma slerp_start_at_pole_loses_phi :
  let s := {| theta := 0; phi := 1 |} in
  let e := {| theta := PI / 2; phi := 0 |} in
  slerp 1 s e 0 = Ok {| theta := 0; phi := 0 |}
  /\ slerp 1 s e 0 <> Ok s
  /\ Rabs (phi s - 0) = 1.
Proof.
  cbv zeta. assert (HPI := PI_RGT_0).
  assert (E : slerp 1 {| theta := 0; phi := 1 |} {| theta := PI / 2; phi := 0 |} 0
              = Ok {| theta := 0; phi := 0 |}).
  { unfold slerp, dot, sphericalToCartesian, Math_sin, Math_cos.
    cbn [x y z theta phi].
    rewrite sin_0, cos_0, sin_PI2, cos_PI2.
    replace (0 * cos 1 * (1 * 1) + 0 * sin 1 * (1 * 0) + 1 * 0) with 0 by ring.
    replace (Math_max (-1) (Math_min 1 0)) with 0
      by (unfold Math_max, Math_min, Rmax, Rmin;
          destruct (Rle_dec 1 0); destruct (Rle_dec (-1) 0);
          destruct (Rle_dec (-1) 1); lra).
    rewrite Math_acos_ok by lra. cbn [bind]. rewrite acos_0.
    unfold Math_abs. rewrite Rabs_right by lra.
    destruct (Rlt_dec (PI / 2) (1 / 10000)) as [H | _].
    { pose proof PI2_1. lra. }
    rewrite sin_PI2. rewrite !div_ok by lra. cbn [bind].
    replace ((1 - 0) * (PI / 2)) with (PI / 2) by ring.
    rewrite (Rmult_0_l (PI / 2)), sin_0, sin_PI2.
    match goal with |- cartesianToSpherical _ ?c = _ =>
      replace c with {| x := 0; y := 0; z := 1 |} by (f_equal; field) end.
    rewrite cartesianToSpherical_unit by (cbn [x y z]; ring).
    cbn [x y z]. rewrite acos_1.
    unfold Math_atan2. destruct (Rlt_dec 0 0); [lra|].
    rewrite while_negative_done by lra. reflexivity. }
  split; [exact E|]. split.
  - rewrite E. intros H. injection H as H. lra.
  - cbn [phi]. rewrite Rminus_0_r. apply Rabs_right. lra.
Qed.

(** C3, amended.  For any two points with [theta] in [[0, PI]] and [phi]
    in [[0, 2 PI)], as long as the weights of [slerp] are not divided by
    zero: [slerp (s, e, 0)] answers with the [theta] of [s], and with [s]
    itself when the [theta] of [s] is at least the smallest normal number
    [2^-1022] and below [PI]; [slerp (s, e, 1)] does the same for [e]; at
    a pole the [phi] is not kept.  [slerp (p, p, t)] is [p] for every
    point [p] and every [t].  Opposite points are not left out: in exact
    arithmetic the divisor [sin (PI)] is zero, but the program divides by
    [Math.sin (Math.PI)], which is [1.2246e-16]; on binary64, for the
    north and the south pole, [slerp] returns the north pole at [t = 0]
    and the south pole at [t = 1]. *)
Theorem slerp_endpoints (fuel : nat) (s e : SphericalCoordinates) :
  0 <= theta s <= PI -> 0 <= phi s < 2 * PI ->
  0 <= theta e <= PI -> 0 <= phi e < 2 * PI ->
  great_circle_defined s e ->
  (exists r, slerp (S fuel) s e 0 = Ok r
             /\ theta r = theta s
             /\ (min_normal <= theta s < PI -> r = s))
  /\ (exists r, slerp (S fuel) s e 1 = Ok r
                /\ theta r = theta e
                /\ (min_normal <= theta e < PI -> r = e))
  /\ (forall p t, slerp fuel p p t = Ok p)
  /\ (Float64.slerp Float64.engine Float64.engine_trig fuel
        Float64.north_pole Float64.south_pole PrimFloat.zero
      = Ok Float64.north_pole
      /\ Float64.slerp Float64.engine Float64.engine_trig fuel
           Float64.north_pole Float64.south_pole PrimFloat.one
         = Ok Float64.south_pole).
Proof.
  intros Hs Hsp He Hep Hdef. apply defined_not_opposite in Hdef.
  pose proof min_normal_bounds as [Hm _].
  split; [|split; [|split]].
  - destruct (slerp_start fuel s e Hs Hdef) as (r & Hr & Ht & Hb).
    exists r. split; [exact Hr|]. split; [exact Ht|].
    intros H1. apply Hb; lra.
  - destruct (slerp_end fuel s e He Hdef) as (r & Hr & Ht & Hb).
    exists r. split; [exact Hr|]. split; [exact Ht|].
    intros H1. apply Hb; lra.
  - intros p t. apply slerp_same.
  - destruct fuel; split; vm_compute; reflexivity.
Qed.

Lemma slerp_endpoints_witness :
  let s := {| theta := PI / 2; phi := 0 |} in
  let e := {| theta := PI / 2; phi := PI / 2 |} in
  (0 <= theta s <= PI /\ 0 <= phi s < 2 * PI
   /\ 0 <= theta e <= PI /\ 0 <= phi e < 2 * PI
   /\ great_circle_defined s e)
  /\ (exists r, slerp 1 s e 0 = Ok r
                /\ theta r = theta s
                /\ (min_normal <= theta s < PI -> r = s))
  /\ (exists r, slerp 1 s e 1 = Ok r
                /\ theta r = theta e
                /\ (min_normal <= theta e < PI -> r = e))
  /\ (forall p t, slerp 0 p p t = Ok p)
  /\ (Float64.slerp Float64.engine Float64.engine_trig 0
        Float64.north_pole Float64.south_pole PrimFloat.zero
      = Ok Float64.north_pole
      /\ Float64.slerp Float64.engine Float64.engine_trig 0
           Float64.north_pole Float64.south_pole PrimFloat.one
         = Ok Float64.south_pole).
Proof.
  cbv zeta. assert (HPI := PI_RGT_0).
  assert (Hdef : great_circle_defined {| theta := PI / 2; phi := 0 |}
                   {| theta := PI / 2; phi := PI / 2 |}).
  { unfold great_circle_defined, dot, sphericalToCartesian, Math_sin, Math_cos.
    cbn [x y z theta phi]. rewrite sin_PI2, cos_PI2, sin_0, cos_0.
    replace (1 * 1 * (1 * 0) + 1 * 0 * (1 * 1) + 0 * 0) with 0 by ring.
    replace (Math_max (-1) (Math_min 1 0)) with 0
      by (unfold Math_max, Math_min, Rmax, Rmin;
          destruct (Rle_dec 1 0); destruct (Rle_dec (-1) 0);
          destruct (Rle_dec (-1) 1); lra).
    right. rewrite acos_0, sin_PI2. lra. }
  split.
  { cbn [theta phi]. split; [lra|]. split; [lra|]. split; [lra|].
    split; [lra | exact Hdef]. }
  apply (slerp_endpoints 0 {| theta := PI / 2; phi := 0 |}
           {| theta := PI / 2; phi := PI / 2 |}).
  - cbn [theta]. lra.
  - cbn [phi]. lra.
  - cbn [theta]. lra.
  - cbn [phi]. lra.
  - exact Hdef.
Defined.

(** C5 fails on the code: for the antipodal pair north pole, south pole
    the angle [omega] is [PI], so the guard [Math.abs (omega) < 0.0001] is
    false: the fallback is not taken, and the weights are divided by
    [Math.sin (omega)]. *)
Theorem slerp_antipodal_not_fallback :
  let north := {| theta := 0; phi := 0 |} in
  let south := {| theta := PI; phi := 0 |} in
  Math_acos
    (Math_max (-1)
       (Math_min 1 (dot (sphericalToCartesian north) (sphericalToCartesian south))))
  = Ok PI
  /\ ~ Math_abs PI < 1 / 10000.
Proof.
  cbv zeta. assert (HPI := PI_RGT_0). pose proof PI2_1 as HPI2.
  assert (Ed : dot (sphericalToCartesian {| theta := 0; phi := 0 |})
                 (sphericalToCartesian {| theta := PI; phi := 0 |}) = -1).
  { unfold dot, sphericalToCartesian, Math_sin, Math_cos. cbn [x y z theta phi].
    rewrite sin_0, cos_0, sin_PI, cos_PI. ring. }
  assert (Ec : Math_max (-1) (Math_min 1 (-1)) = -1).
  { unfold Math_max, Math_min, Rmax, Rmin.
    destruct (Rle_dec 1 (-1)); destruct (Rle_dec (-1) (-1));
      destruct (Rle_dec (-1) 1); lra. }
  assert (Ea : acos (-1) = PI).
  { replace (-1) with (- (1)) by ring. rewrite acos_opp, acos_1. ring. }
  split.
  - rewrite Ed, Ec, Math_acos_ok by lra. rewrite Ea. reflexivity.
  - unfold Math_abs. rewrite Rabs_right by lra. lra.
Qed.

(** C6.  [sphericalToCartesian] returns a unit vector, for every [theta]
    and [phi]: the squared norm is [1], hence within [1e-9] of [1]. *)
Theorem sphericalToCartesian_unit (coords : SphericalCoordinates) :
  let v := sphericalToCartesian coords in
  x v ^ 2 + y v ^ 2 + z v ^ 2 = 1
  /\ Rabs (x v ^ 2 + y v ^ 2 + z v ^ 2 - 1) <= 1 / 1000000000.
Proof.
  cbv zeta. rewrite norm_sphericalToCartesian.
  split; [reflexivity|]. rewrite Rminus_diag, Rabs_R0. lra.
Qed.

(** C7 fails on the code, by rounding.  On binary64, for the vector
    [(1, -1e-20, 0)] the angle [Math.atan2] returns is the tiny negative
    [-1e-20]; the loop adds [2 * Math.PI] to it once, the sum rounds to
    [2 * Math.PI] itself, and [cartesianToSpherical] returns that as [phi]:
    a value that is not below [2 * Math.PI].  ([amplitudesToSpherical] has
    a second loop for it; in exact arithmetic the range holds, see
    [cartesianToSpherical_range].) *)
Theorem cartesianToSpherical_phi_full_turn (M : Float64.Libm) :
  Float64.Math_atan2 M (Float64.y Float64.below_x_axis)
    (Float64.x Float64.below_x_axis)
  = Float64.y Float64.below_x_axis ->
  Float64.cartesianToSpherical M 1 Float64.below_x_axis
  = Ok {| Float64.theta := Float64.Math_acos M PrimFloat.zero;
          Float64.phi := Float64.full_turn |}
  /\ PrimFloat.ltb Float64.full_turn Float64.full_turn = false.
Proof.
  intros H. split; [|vm_compute; reflexivity].
  unfold Float64.cartesianToSpherical. rewrite H.
  vm_compute. reflexivity.
Qed.

Lemma cartesianToSpherical_phi_full_turn_witness :
  Float64.Math_atan2 Float64.libm_near_x_axis
    (Float64.y Float64.below_x_axis) (Float64.x Float64.below_x_axis)
  = Float64.y Float64.below_x_axis
  /\ Float64.cartesianToSpherical Float64.libm_near_x_axis 1 Float64.below_x_axis
     = Ok {| Float64.theta :=
               Float64.Math_acos Float64.libm_near_x_axis PrimFloat.zero;
             Float64.phi := Float64.full_turn |}
  /\ PrimFloat.ltb Float64.full_turn Float64.full_turn = false.
Proof.
  split; [vm_compute; reflexivity|].
  apply (cartesianToSpherical_phi_full_turn Float64.libm_near_x_axis).
  vm_compute; reflexivity.
Defined.

(** C8.  The degenerate inputs do not fail: the all-zero amplitude pair
    and the zero vector are mapped to the north pole
    [{theta: 0, phi: 0}], before any division. *)
Theorem converters_total :
  (forall fuel,
      amplitudesToSpherical fuel
        {| alpha := {| real := 0; imag := 0 |};
           beta := {| real := 0; imag := 0 |} |}
      = Ok {| theta := 0; phi := 0 |})
  /\ (forall fuel,
         cartesianToSpherical fuel {| x := 0; y := 0; z := 0 |}
         = Ok {| theta := 0; phi := 0 |}).
Proof.
  split.
  - intros fuel. rewrite amplitudesToSpherical_eq. cbv zeta.
    cbn [alpha beta real imag].
    replace (0 ^ 2 + 0 ^ 2) with 0 by ring. rewrite sqrt_0.
    replace (0 ^ 2 + 0 ^ 2) with 0 by ring. rewrite sqrt_0.
    destruct (Req_dec_T 0 0) as [_ | H]; [reflexivity | contradiction].
  - intros fuel. unfold cartesianToSpherical. cbn [x y z].
    replace (0 ^ 2 + 0 ^ 2 + 0 ^ 2) with 0 by ring.
    rewrite Math_sqrt_ok by lra. cbn [bind]. rewrite sqrt_0.
    destruct (Req_dec_T 0 0) as [_ | H]; [reflexivity | contradiction].
Qed.




(** C10.  [sphericalToAmplitudes] returns a normalised pair, for every
    [theta] and [phi]: [|alpha|^2 + |beta|^2 = 1], and [alpha] is real. *)
Theorem sphericalToAmplitudes_normalized (coords : SphericalCoordinates) :
  let amp := sphericalToAmplitudes coords in
  (real (alpha amp) ^ 2 + imag (alpha amp) ^ 2)
  + (real (beta amp) ^ 2 + imag (beta amp) ^ 2) = 1
  /\ imag (alpha amp) = 0.
Proof.
  cbv zeta. unfold sphericalToAmplitudes, Math_sin, Math_cos.
  cbn [alpha beta real imag]. split; [|reflexivity].
  assert (H1 := sin2_cos2 (theta coords / 2)).
  assert (H2 := sin2_cos2 (phi coords)). unfold Rsqr in H1, H2. nra.
Qed.

(** C4.  Superseding a target in flight.  In any world the hook can reach
    in which a frame of an animation is still requested, that frame belongs
    to the tracked target [A]; a render with a target [B] that differs from
    [A], animation enabled, removes it from the queue and requests one frame
    for [B], logs exactly one start event, for [B], and makes the current
    (mid-flight) state the start of the interpolation, with the start time
    cleared: the next frame interpolates from that state towards [B] at
    elapsed time [0].  Whatever frames and renders with the same props
    follow, every frame requested is for [B], the start of the
    interpolation stays that state, and the log only grows by end events
    of [B]: the end event of [A] never fires. *)
Theorem supersede_in_flight (fuel : nat) (w : World)
    (B : SphericalCoordinates) (cfg : AnimationConfig) :
  reachable fuel w -> in_flight w ->
  theta (prevTargetRef (hook w)) <> theta B
  \/ phi (prevTargetRef (hook w)) <> phi B ->
  cfg_enabled cfg = true ->
  let A := prevTargetRef (hook w) in
  let w' := render B cfg w in
  let clB := {| cl_target := B; cl_duration := cfg_duration cfg;
                cl_easing := cfg_easing cfg |} in
  (exists id cl, frames w = [(id, cl)] /\ cl_target cl = A)
  /\ frames w' = [(next_frame w, clB)]
  /\ (forall e, In e (frames w) -> ~ In e (frames w'))
  /\ log w' = log w ++ [AnimationStart B]
  /\ startStateRef (hook w') = currentState (hook w)
  /\ startTimeRef (hook w') = None
  /\ (forall timestamp,
        currentState (hook (frame fuel timestamp w')) =
        (p <- progress_of 0 (cfg_duration cfg) ;;
         s <- currentState (hook w) ;;
         slerp fuel s B (easingFunctions (cfg_easing cfg) p)))
  /\ forall ticks,
       let w'' := run_ticks fuel B cfg ticks w' in
       (forall e, In e (frames w'') -> cl_target (snd e) = B)
       /\ startStateRef (hook w'') = currentState (hook w)
       /\ exists ends,
            log w'' = log w ++ [AnimationStart B] ++ ends
            /\ (forall ev, In ev ends -> ev = AnimationEnd B)
            /\ ~ In (AnimationEnd A) ends.
Proof.
  intros Hreach Hfl Hdiff Hen. cbv zeta.
  pose proof (reachable_Inv fuel w Hreach) as HI.
  pose proof (render_supersedes w B cfg HI Hdiff Hen) as Hr.
  assert (HAB : prevTargetRef (hook w) <> B)
    by (intros E; rewrite E in Hdiff; destruct Hdiff as [H | H]; apply H; reflexivity).
  destruct HI as (_ & _ & [Hf | (id & cl & Hf & _ & Hcl & _)]);
    [contradiction|].
  split; [exists id, cl; auto|].
  rewrite Hr. cbn [frames log hook startStateRef startTimeRef].
  split; [reflexivity|]. split.
  { intros e He [He' | []]. rewrite Hf in He. destruct He as [<- | []].
    inversion He' as [[Hid Hc]]. apply HAB. rewrite <- Hcl, <- Hc. reflexivity. }
  split; [reflexivity|]. split; [reflexivity|]. split; [reflexivity|].
  split.
  { intros timestamp.
    erewrite first_frame by reflexivity. reflexivity. }
  intros ticks.
  match goal with |- context [run_ticks fuel B cfg ticks ?w0] =>
    assert (Hd : driving B (currentState (hook w))
                   (log w ++ [AnimationStart B]) w0) end.
  { unfold driving. cbn. split; [reflexivity|]. split.
    - intros e [<- | []]. reflexivity.
    - exists []. rewrite app_nil_r. split; [reflexivity | intros ev []]. }
  apply (run_ticks_driving fuel B cfg _ _ ticks) in Hd; [|reflexivity].
  destruct Hd as (Hs & Hfr & ends & Hlog & Hends).
  split; [exact Hfr|]. split; [exact Hs|].
  exists ends. split; [rewrite Hlog, app_assoc; reflexivity|].
  split; [exact Hends|].
  intros Hin. apply Hends in Hin. inversion Hin as [E]. apply HAB. exact E.
Qed.

Lemma supersede_in_flight_witness :
  let cfg := {| enabled := Some true; duration := None; easing := None |} in
  let A := {| theta := 1; phi := 0 |} in
  let B := {| theta := 2; phi := 0 |} in
  let w := frame 1 16 (render A cfg (mount {| theta := 0; phi := 0 |} cfg)) in
  (reachable 1 w /\ in_flight w
   /\ (theta (prevTargetRef (hook w)) <> theta B
       \/ phi (prevTargetRef (hook w)) <> phi B)
   /\ cfg_enabled cfg = true)
  /\ log (render B cfg w) = log w ++ [AnimationStart B]
  /\ startStateRef (hook (render B cfg w)) = currentState (hook w).
Proof.
  cbv zeta.
  set (cfg := {| enabled := Some true; duration := None; easing := None |}).
  set (T0 := {| theta := 0; phi := 0 |}).
  set (A := {| theta := 1; phi := 0 |}).
  set (B := {| theta := 2; phi := 0 |}).
  assert (HA : render A cfg (mount T0 cfg) =
               {| hook :=
                    {| currentState := Ok T0;
                       animationRef := Some 1%positive;
                       startStateRef := Ok T0;
                       startTimeRef := None;
                       isFirstRender := false;
                       prevTargetRef := A |};
                  frames := [(1%positive,
                              {| cl_target := A; cl_duration := 300;
                                 cl_easing := easeInOut |})];
                  next_frame := 2%positive;
                  cleanup := true;
                  deps := Some (deps_of A cfg);
                  log := [AnimationStart A] |}).
  { rewrite render_supersedes;
      [reflexivity | apply Inv_mount | left; cbn; lra | reflexivity]. }
  set (w := frame 1 16 (render A cfg (mount T0 cfg))).
  assert (Hflight : in_flight w).
  { unfold in_flight, w. rewrite HA. unfold frame, animate.
    cbn [frames fold_left snd hook startTimeRef cl_duration].
    unfold progress_of. destruct (Req_dec_T 300 0) as [H | _]; [lra|].
    unfold progress_lt_1, Math_min, Rmin.
    destruct (Rle_dec ((16 - 16) / 300) 1) as [_ | H]; [|lra].
    destruct (Rlt_dec ((16 - 16) / 300) 1) as [_ | H]; [|lra].
    cbn. discriminate. }
  assert (Hprev : prevTargetRef (hook w) = A).
  { unfold w. rewrite HA. unfold frame, animate.
    cbn [frames fold_left snd hook startTimeRef cl_duration].
    destruct (progress_lt_1 _ _); reflexivity. }
  assert (Hreach : reachable 1 w)
    by (unfold w; apply reach_frame, reach_render, reach_mount).
  assert (Hdiff : theta (prevTargetRef (hook w)) <> theta B
                  \/ phi (prevTargetRef (hook w)) <> phi B)
    by (left; rewrite Hprev; cbn; lra).
  split; [repeat split; assumption|].
  destruct (supersede_in_flight 1 w B cfg Hreach Hflight Hdiff eq_refl)
    as (_ & _ & _ & Hlog & Hstart & _).
  split; assumption.
Defined.

(** * Further properties of the code *)

(** ** Easing curves *)

(** X1.  Every easing curve starts at [0], ends at [1] and keeps [[0, 1]]
    inside [[0, 1]]. *)
Theorem easing_unit_interval (e : EasingFunction) (t : R) :
  0 <= t <= 1 ->
  easingFunctions e 0 = 0 /\ easingFunctions e 1 = 1
  /\ 0 <= easingFunctions e t <= 1.
Proof.
  intros Ht. destruct e; cbn [easingFunctions].
  - lra.
  - destruct (Rlt_dec 0 (1 / 2)); [|lra]. destruct (Rlt_dec 1 (1 / 2)); [lra|].
    destruct (Rlt_dec t (1 / 2)); nra.
  - nra.
  - nra.
Qed.

Lemma easing_unit_interval_witness :
  0 <= 1 / 4 <= 1
  /\ easingFunctions easeInOut 0 = 0 /\ easingFunctions easeInOut 1 = 1
  /\ 0 <= easingFunctions easeInOut (1 / 4) <= 1.
Proof.
  split; [lra|]. apply (easing_unit_interval easeInOut (1 / 4)). lra.
Defined.

(** X2.  Every easing curve is non-decreasing on [[0, 1]]: progress never
    runs backwards. *)
Theorem easing_monotone (e : EasingFunction) (s t : R) :
  0 <= s -> s <= t -> t <= 1 ->
  easingFunctions e s <= easingFunctions e t.
Proof.
  intros Hs Hst Ht. destruct e; cbn [easingFunctions].
  - lra.
  - destruct (Rlt_dec s (1 / 2)); destruct (Rlt_dec t (1 / 2)); nra.
  - nra.
  - nra.
Qed.

Lemma easing_monotone_witness :
  (0 <= 1 / 4 /\ 1 / 4 <= 3 / 4 /\ 3 / 4 <= 1)
  /\ easingFunctions easeInOut (1 / 4) <= easingFunctions easeInOut (3 / 4).
Proof.
  split; [lra|]. apply (easing_monotone easeInOut (1 / 4) (3 / 4)); lra.
Defined.

(** X3.  The curves mirror each other: [easeOut] is [easeIn] run backwards,
    and [easeInOut] is its own mirror image about the point [(1/2, 1/2)],
    so its two pieces meet there. *)
Theorem easing_mirror (t : R) :
  easingFunctions easeOut t = 1 - easingFunctions easeIn (1 - t)
  /\ easingFunctions easeInOut (1 - t) = 1 - easingFunctions easeInOut t.
Proof.
  cbn [easingFunctions]. split; [ring|].
  destruct (Rlt_dec (1 - t) (1 / 2)); destruct (Rlt_dec t (1 / 2)); nra.
Qed.

(** ** The direction [Math.atan2] returns *)

Lemma sqrt_one_plus_slope (b a : R) :
  a <> 0 -> sqrt (1 + (b / a)²) = sqrt (a ^ 2 + b ^ 2) / Rabs a.
Proof.
  intros Ha.
  replace (1 + (b / a)²) with ((a ^ 2 + b ^ 2) / a²)
    by (unfold Rsqr; field; exact Ha).
  assert (0 < a²) by (apply Rlt_0_sqr; exact Ha).
  rewrite sqrt_div by (nra || assumption).
  rewrite sqrt_Rsqr_abs. reflexivity.
Qed.

(** The point [(a, b)] is its distance from the origin times the cosine and
    the sine of the angle [Math.atan2 (b, a)]. *)
Lemma Math_atan2_direction (b a : R) :
  0 < a ^ 2 + b ^ 2 ->
  sqrt (a ^ 2 + b ^ 2) * cos (Math_atan2 b a) = a
  /\ sqrt (a ^ 2 + b ^ 2) * sin (Math_atan2 b a) = b.
Proof.
  intros Hpos.
  assert (Hr : 0 < sqrt (a ^ 2 + b ^ 2)) by (apply sqrt_lt_R0; exact Hpos).
  unfold Math_atan2.
  destruct (Rlt_dec 0 a) as [Ha | Ha].
  - rewrite cos_atan, sin_atan, sqrt_one_plus_slope by lra.
    rewrite Rabs_right by lra. split; field; lra.
  - destruct (Rlt_dec a 0) as [Ha' | Ha'].
    + destruct (Rle_dec 0 b).
      * rewrite neg_cos, neg_sin, cos_atan, sin_atan, sqrt_one_plus_slope by lra.
        rewrite Rabs_left by lra. split; field; lra.
      * rewrite cos_minus_PI, sin_minus_PI, cos_atan, sin_atan,
          sqrt_one_plus_slope by lra.
        rewrite Rabs_left by lra. split; field; lra.
    + assert (a = 0) by lra. subst a.
      replace (0 ^ 2 + b ^ 2) with (b ^ 2) in * by ring.
      destruct (Rlt_dec 0 b) as [Hb | Hb].
      * rewrite sqrt_pow2 by lra. rewrite cos_PI2, sin_PI2. lra.
      * destruct (Rlt_dec b 0) as [Hb' | Hb']; [|nra].
        replace (b ^ 2) with ((- b) ^ 2) by ring.
        rewrite sqrt_pow2 by lra. rewrite cos_neg, sin_neg, cos_PI2, sin_PI2. lra.
Qed.

(** The normalisation loop only adds full turns. *)
Lemma while_negative_turns (fuel : nat) (p q : R) :
  while_negative fuel p = Ok q -> cos q = cos p /\ sin q = sin p.
Proof.
  revert p. induction fuel as [| fuel IH]; intros p; cbn [while_negative];
    destruct (Rlt_dec p 0); try discriminate.
  - intros H; injection H as <-. auto.
  - intros H. apply IH in H. unfold Math_PI in H.
    rewrite cos_shift_2PI, sin_shift_2PI in H. exact H.
  - intros H; injection H as <-. auto.
Qed.

Lemma cartesianToSpherical_nonzero (fuel : nat) (v : CartesianCoordinates) :
  0 < x v ^ 2 + y v ^ 2 + z v ^ 2 ->
  let r := sqrt (x v ^ 2 + y v ^ 2 + z v ^ 2) in
  cartesianToSpherical fuel v =
  (p <- while_negative fuel (Math_atan2 (y v) (x v)) ;;
   Ok {| theta := acos (z v / r); phi := p |})
  /\ 0 < r /\ -1 <= z v / r <= 1.
Proof.
  intros Hpos. cbv zeta.
  set (r := sqrt (x v ^ 2 + y v ^ 2 + z v ^ 2)).
  assert (Hr : 0 < r) by (apply sqrt_lt_R0; exact Hpos).
  assert (Hrr : r * r = x v ^ 2 + y v ^ 2 + z v ^ 2)
    by (apply sqrt_sqrt; lra).
  assert (Hq : -1 <= z v / r <= 1).
  { split.
    - apply Rmult_le_reg_r with r; [exact Hr|].
      unfold Rdiv. rewrite Rmult_assoc, Rinv_l by lra. nra.
    - apply Rmult_le_reg_r with r; [exact Hr|].
      unfold Rdiv. rewrite Rmult_assoc, Rinv_l by lra. nra. }
  split; [|split; assumption].
  unfold cartesianToSpherical. rewrite Math_sqrt_ok by lra. cbn [bind].
  fold r. destruct (Req_dec_T r 0) as [H | _]; [lra|].
  rewrite div_ok by lra. cbn [bind].
  rewrite clamp_id by exact Hq. rewrite Math_acos_ok by exact Hq. reflexivity.
Qed.

Lemma cartesianToSpherical_direction (fuel : nat) (v : CartesianCoordinates) :
  0 < x v ^ 2 + y v ^ 2 + z v ^ 2 ->
  let r := sqrt (x v ^ 2 + y v ^ 2 + z v ^ 2) in
  exists s,
    cartesianToSpherical (S fuel) v = Ok s
    /\ sphericalToCartesian s = {| x := x v / r; y := y v / r; z := z v / r |}
    /\ (x v ^ 2 + y v ^ 2 + z v ^ 2 = 1 -> sphericalToCartesian s = v).
Proof.
  intros Hpos. cbv zeta.
  destruct (cartesianToSpherical_nonzero (S fuel) v Hpos) as (E & Hr & Hq).
  set (r := sqrt (x v ^ 2 + y v ^ 2 + z v ^ 2)) in *.
  assert (Hrr : r * r = x v ^ 2 + y v ^ 2 + z v ^ 2)
    by (apply sqrt_sqrt; lra).
  pose proof (Math_atan2_bound (y v) (x v)) as Hb.
  assert (HPI := PI_RGT_0).
  destruct (while_negative_total fuel (Math_atan2 (y v) (x v))) as (p & Hp & _);
    [lra|].
  rewrite E, Hp. cbn [bind].
  assert (Hmain : sphericalToCartesian {| theta := acos (z v / r); phi := p |}
                  = {| x := x v / r; y := y v / r; z := z v / r |}).
  { apply while_negative_turns in Hp. destruct Hp as [Hc Hs].
    unfold sphericalToCartesian, Math_sin, Math_cos. cbn [theta phi].
    rewrite Hc, Hs, cos_acos by exact Hq. rewrite sin_acos by exact Hq.
    assert (Hsin : sqrt (1 - (z v / r)²) = sqrt (x v ^ 2 + y v ^ 2) / r).
    { replace (1 - (z v / r)²) with ((r * r - z v ^ 2) / (r * r))
        by (unfold Rsqr; field; lra).
      replace (r * r - z v ^ 2) with (x v ^ 2 + y v ^ 2) by (rewrite Hrr; ring).
      rewrite sqrt_div by nra. rewrite sqrt_square by lra. reflexivity. }
    rewrite Hsin.
    destruct (Req_dec (x v ^ 2 + y v ^ 2) 0) as [H0 | H0].
    - assert (x v = 0) by nra. assert (y v = 0) by nra.
      rewrite H0, sqrt_0, H, H1. f_equal; field; lra.
    - assert (Hxy : 0 < x v ^ 2 + y v ^ 2) by nra.
      destruct (Math_atan2_direction (y v) (x v) Hxy) as [Hx Hy].
      set (rho := sqrt (x v ^ 2 + y v ^ 2)) in *.
      set (a := Math_atan2 (y v) (x v)) in *.
      replace (rho / r * cos a) with (rho * cos a / r) by (field; lra).
      replace (rho / r * sin a) with (rho * sin a / r) by (field; lra).
      rewrite Hx, Hy. reflexivity. }
  eexists; split; [reflexivity|]. split; [exact Hmain|].
  intros Hunit. rewrite Hmain.
  assert (r = 1) by (unfold r; rewrite Hunit; apply sqrt_1).
  rewrite H. destruct v as [vx0 vy0 vz0]. cbn [x y z]. f_equal; field.
Qed.

(** X4.  The other round trip: for a vector whose squared length is
    between [2^-1000] and [2^1000] (nothing overflows or underflows),
    [sphericalToCartesian (cartesianToSpherical (v))] is [v] brought to
    length [1]; so a unit vector comes back as it is. *)
Theorem spherical_cartesian_roundtrip (fuel : nat) (v : CartesianCoordinates) :
  well_scaled (squared_length v) ->
  let r := sqrt (squared_length v) in
  exists s,
    cartesianToSpherical (S fuel) v = Ok s
    /\ sphericalToCartesian s = {| x := x v / r; y := y v / r; z := z v / r |}
    /\ (squared_length v = 1 -> sphericalToCartesian s = v).
Proof.
  intros Hw. apply well_scaled_pos in Hw. unfold squared_length in *.
  apply cartesianToSpherical_direction. exact Hw.
Qed.

Lemma spherical_cartesian_roundtrip_witness :
  let v := {| x := 0; y := 1; z := 0 |} in
  well_scaled (squared_length v)
  /\ exists s,
       cartesianToSpherical 1 v = Ok s
       /\ sphericalToCartesian s
          = {| x := x v / sqrt (squared_length v);
               y := y v / sqrt (squared_length v);
               z := z v / sqrt (squared_length v) |}
       /\ (squared_length v = 1 -> sphericalToCartesian s = v).
Proof.
  cbv zeta.
  assert (H : well_scaled (squared_length {| x := 0; y := 1; z := 0 |})).
  { apply well_scaled_moderate. unfold squared_length. cbn [x y z]. lra. }
  split; [exact H|].
  apply (spherical_cartesian_roundtrip 0 {| x := 0; y := 1; z := 0 |} H).
Defined.

Lemma sqrt_scale3 (c a b d : R) :
  0 <= c ->
  sqrt ((c * a) ^ 2 + (c * b) ^ 2 + (c * d) ^ 2)
  = c * sqrt (a ^ 2 + b ^ 2 + d ^ 2).
Proof.
  intros Hc.
  replace ((c * a) ^ 2 + (c * b) ^ 2 + (c * d) ^ 2)
    with (c ^ 2 * (a ^ 2 + b ^ 2 + d ^ 2)) by ring.
  rewrite sqrt_mult by nra. rewrite sqrt_pow2 by exact Hc. reflexivity.
Qed.

Lemma cartesianToSpherical_rescale (fuel : nat) (c : R)
    (v : CartesianCoordinates) :
  0 < c ->
  cartesianToSpherical fuel (scale_vector c v) = cartesianToSpherical fuel v.
Proof.
  intros Hc. unfold cartesianToSpherical, scale_vector. cbn [x y z].
  rewrite !Math_sqrt_ok by nra. cbn [bind].
  rewrite sqrt_scale3 by lra.
  rewrite Math_atan2_scale by exact Hc.
  set (r := sqrt (x v ^ 2 + y v ^ 2 + z v ^ 2)).
  destruct (Req_dec_T (c * r) 0) as [H | H]; destruct (Req_dec_T r 0) as [H' | H'].
  - reflexivity.
  - exfalso. apply H'. nra.
  - exfalso. apply H. rewrite H'. ring.
  - rewrite !div_ok by assumption. cbn [bind].
    replace (c * z v / (c * r)) with (z v / r) by (field; lra). reflexivity.
Qed.

(** X5.  [cartesianToSpherical] only sees the direction of a vector, as
    long as every component of the vector and of the scaled vector is zero
    or of a magnitude between [2^-500] and [2^500] (nothing overflows or
    underflows): for [c > 0] it answers on [c * v] what it answers on
    [v]. *)
Theorem cartesianToSpherical_scale_invariant (fuel : nat) (c : R)
    (v : CartesianCoordinates) :
  0 < c ->
  vector_in_range v ->
  vector_in_range (scale_vector c v) ->
  cartesianToSpherical fuel (scale_vector c v) = cartesianToSpherical fuel v.
Proof.
  intros Hc _ _. apply cartesianToSpherical_rescale. exact Hc.
Qed.

Lemma cartesianToSpherical_scale_invariant_witness :
  let v := {| x := 1; y := 2; z := 2 |} in
  (0 < 3 /\ vector_in_range v /\ vector_in_range (scale_vector 3 v))
  /\ cartesianToSpherical 1 (scale_vector 3 v) = cartesianToSpherical 1 v.
Proof.
  cbv zeta.
  assert (H1 : vector_in_range {| x := 1; y := 2; z := 2 |}).
  { unfold vector_in_range. cbn [x y z].
    split; [|split]; apply in_range_moderate; right; lra. }
  assert (H2 : vector_in_range (scale_vector 3 {| x := 1; y := 2; z := 2 |})).
  { unfold vector_in_range, scale_vector. cbn [x y z].
    split; [|split]; apply in_range_moderate; right; lra. }
  split; [split; [lra | split; assumption]|].
  apply (cartesianToSpherical_scale_invariant 1 3); [lra | exact H1 | exact H2].
Defined.

(** ** [slerp] on the great circle *)

(** The two weights of [slerp], for the angles [(1 - t) * omega = a] and
    [t * omega = b]. *)
Lemma slerp_weights (a b : R) :
  sin (a + b) <> 0 ->
  let wa := sin a / sin (a + b) in
  let wb := sin b / sin (a + b) in
  wa ^ 2 + wb ^ 2 + 2 * wa * wb * cos (a + b) = 1
  /\ wa + wb * cos (a + b) = cos b
  /\ wa * cos (a + b) + wb = cos a.
Proof.
  intros Hs. cbv zeta. rewrite sin_plus in *. rewrite cos_plus.
  assert (Ha := sin2_cos2 a). assert (Hb := sin2_cos2 b). unfold Rsqr in Ha, Hb.
  set (sa := sin a) in *. set (ca := cos a) in *.
  set (sb := sin b) in *. set (cb := cos b) in *.
  assert (Hca : ca * ca = 1 - sa * sa) by lra.
  assert (Hcb : cb * cb = 1 - sb * sb) by lra.
  repeat split.
  - apply Rmult_eq_reg_r with ((sa * cb + ca * sb) ^ 2); [|apply pow_nonzero; exact Hs].
    transitivity (sa ^ 2 + sb ^ 2 + 2 * sa * sb * (ca * cb - sa * sb));
      [field; exact Hs|].
    replace ((sa * cb + ca * sb) ^ 2)
      with (sa ^ 2 * (cb * cb) + (ca * ca) * sb ^ 2 + 2 * sa * sb * ca * cb) by ring.
    rewrite Hca, Hcb. ring.
  - apply Rmult_eq_reg_r with (sa * cb + ca * sb); [|exact Hs].
    transitivity (sa + sb * (ca * cb - sa * sb)); [field; exact Hs|].
    replace (cb * (sa * cb + ca * sb)) with (sa * (cb * cb) + ca * sb * cb) by ring.
    rewrite Hcb. ring.
  - apply Rmult_eq_reg_r with (sa * cb + ca * sb); [|exact Hs].
    transitivity (sa * (ca * cb - sa * sb) + sb); [field; exact Hs|].
    replace (ca * (sa * cb + ca * sb)) with (ca * sa * cb + (ca * ca) * sb) by ring.
    rewrite Hca. ring.
Qed.

Lemma dot_bound (s e : SphericalCoordinates) :
  -1 <= dot (sphericalToCartesian s) (sphericalToCartesian e) <= 1.
Proof.
  pose proof (norm_sphericalToCartesian s) as Hs.
  pose proof (norm_sphericalToCartesian e) as He.
  unfold dot. set (u := sphericalToCartesian s) in *.
  set (v := sphericalToCartesian e) in *.
  pose proof (pow2_ge_0 (x u + x v)). pose proof (pow2_ge_0 (y u + y v)).
  pose proof (pow2_ge_0 (z u + z v)). pose proof (pow2_ge_0 (x u - x v)).
  pose proof (pow2_ge_0 (y u - y v)). pose proof (pow2_ge_0 (z u - z v)).
  split.
  - replace (x u * x v + y u * y v + z u * z v)
      with (((x u + x v) ^ 2 + (y u + y v) ^ 2 + (z u + z v) ^ 2
             - (x u ^ 2 + y u ^ 2 + z u ^ 2)
             - (x v ^ 2 + y v ^ 2 + z v ^ 2)) / 2) by field.
    lra.
  - replace (x u * x v + y u * y v + z u * z v)
      with (((x u ^ 2 + y u ^ 2 + z u ^ 2) + (x v ^ 2 + y v ^ 2 + z v ^ 2)
             - ((x u - x v) ^ 2 + (y u - y v) ^ 2 + (z u - z v) ^ 2)) / 2)
      by field.
    lra.
Qed.

(** X6.  On the great-circle branch, for two points whose angle [omega]
    is between [0.001] and [3] (clear of the fallback, and well away from
    opposite points, where the weights grow without bound) and for [t] in
    [[0, 1]], [slerp] answers with a point of the sphere whose vector is
    [a * start + b * end] as it stands (it has length [1]: nothing is
    lost in turning it into angles), at the angle [t * omega] from the
    start and [(1 - t) * omega] from the end. *)
Theorem slerp_great_circle (fuel : nat) (s e : SphericalCoordinates) (t : R) :
  let u := sphericalToCartesian s in
  let v := sphericalToCartesian e in
  let omega := acos (dot u v) in
  1 / 1000 <= omega <= 3 -> 0 <= t <= 1 ->
  exists r,
    slerp (S fuel) s e t = Ok r
    /\ sphericalToCartesian r
       = {| x := sin ((1 - t) * omega) / sin omega * x u
                 + sin (t * omega) / sin omega * x v;
            y := sin ((1 - t) * omega) / sin omega * y u
                 + sin (t * omega) / sin omega * y v;
            z := sin ((1 - t) * omega) / sin omega * z u
                 + sin (t * omega) / sin omega * z v |}
    /\ dot u (sphericalToCartesian r) = cos (t * omega)
    /\ dot (sphericalToCartesian r) v = cos ((1 - t) * omega).
Proof.
  cbv zeta. intros [Hom Hom3] _.
  pose proof (dot_bound s e) as Hd.
  assert (Hdot : -1 < dot (sphericalToCartesian s) (sphericalToCartesian e)).
  { destruct (Rlt_le_dec (-1)
                (dot (sphericalToCartesian s) (sphericalToCartesian e)))
      as [H | H]; [exact H | exfalso].
    assert (E : dot (sphericalToCartesian s) (sphericalToCartesian e) = - (1))
      by lra.
    rewrite E, acos_opp, acos_1 in Hom3. pose proof PI2_3_2. lra. }
  pose proof (norm_sphericalToCartesian s) as Hs.
  pose proof (norm_sphericalToCartesian e) as He.
  set (u := sphericalToCartesian s) in *.
  set (v := sphericalToCartesian e) in *.
  assert (Hclamp : Math_max (-1) (Math_min 1 (dot u v)) = dot u v).
  { unfold Math_max, Math_min, Rmax, Rmin.
    destruct (Rle_dec 1 (dot u v)); destruct (Rle_dec (-1) 1);
      destruct (Rle_dec (-1) (dot u v)); lra. }
  assert (Hguard : ~ Math_abs (acos (Math_max (-1) (Math_min 1 (dot u v))))
                     < 1 / 10000).
  { rewrite Hclamp. unfold Math_abs. rewrite Rabs_right; lra. }
  pose proof (omega_sin_pos _ Hdot Hguard) as Hsin. rewrite Hclamp in Hsin.
  set (omega := acos (dot u v)) in *.
  assert (Hcos : cos omega = dot u v) by (apply cos_acos; lra).
  assert (Hsplit : (1 - t) * omega + t * omega = omega) by ring.
  assert (Hs' : sin ((1 - t) * omega + t * omega) <> 0) by (rewrite Hsplit; lra).
  destruct (slerp_weights _ _ Hs') as (W1 & W2 & W3).
  rewrite Hsplit in W1, W2, W3. rewrite Hcos in W1, W2, W3.
  set (wa := sin ((1 - t) * omega) / sin omega) in *.
  set (wb := sin (t * omega) / sin omega) in *.
  set (w := {| x := wa * x u + wb * x v; y := wa * y u + wb * y v;
               z := wa * z u + wb * z v |}).
  assert (Hw : x w ^ 2 + y w ^ 2 + z w ^ 2 = 1).
  { unfold w. cbn [x y z]. unfold dot in W1.
    replace ((wa * x u + wb * x v) ^ 2 + (wa * y u + wb * y v) ^ 2
             + (wa * z u + wb * z v) ^ 2)
      with (wa ^ 2 * (x u ^ 2 + y u ^ 2 + z u ^ 2)
            + wb ^ 2 * (x v ^ 2 + y v ^ 2 + z v ^ 2)
            + 2 * wa * wb * (x u * x v + y u * y v + z u * z v)) by ring.
    rewrite Hs, He. lra. }
  destruct (cartesianToSpherical_direction fuel w) as (r & Hr & _ & Hback);
    [lra|].
  exists r. split.
  - unfold slerp. cbv zeta. fold u v. rewrite Hclamp.
    rewrite Math_acos_ok by lra. cbn [bind]. fold omega.
    destruct (Rlt_dec (Math_abs omega) (1 / 10000)) as [H | _].
    { unfold Math_abs in H. rewrite Rabs_right in H; lra. }
    unfold Math_sin. rewrite !div_ok by lra. cbn [bind]. exact Hr.
  - rewrite (Hback Hw). split; [reflexivity|].
    unfold dot, w in *. cbn [x y z]. split.
    + replace (x u * (wa * x u + wb * x v) + y u * (wa * y u + wb * y v)
               + z u * (wa * z u + wb * z v))
        with (wa * (x u ^ 2 + y u ^ 2 + z u ^ 2)
              + wb * (x u * x v + y u * y v + z u * z v)) by ring.
      rewrite Hs. lra.
    + replace ((wa * x u + wb * x v) * x v + (wa * y u + wb * y v) * y v
               + (wa * z u + wb * z v) * z v)
        with (wa * (x u * x v + y u * y v + z u * z v)
              + wb * (x v ^ 2 + y v ^ 2 + z v ^ 2)) by ring.
      rewrite He. lra.
Qed.

Lemma slerp_great_circle_witness :
  let s := {| theta := PI / 2; phi := 0 |} in
  let e := {| theta := PI / 2; phi := PI / 2 |} in
  let u := sphericalToCartesian s in
  let v := sphericalToCartesian e in
  (1 / 1000 <= acos (dot u v) <= 3 /\ 0 <= 1 / 2 <= 1)
  /\ exists r,
       slerp 1 s e (1 / 2) = Ok r
       /\ dot u (sphericalToCartesian r) = cos (1 / 2 * acos (dot u v)).
Proof.
  cbv zeta.
  assert (Hd : dot (sphericalToCartesian {| theta := PI / 2; phi := 0 |})
                 (sphericalToCartesian {| theta := PI / 2; phi := PI / 2 |}) = 0).
  { unfold dot, sphericalToCartesian, Math_sin, Math_cos. cbn [x y z theta phi].
    rewrite sin_PI2, cos_PI2, sin_0, cos_0. ring. }
  assert (Hh : 1 / 1000
               <= acos (dot (sphericalToCartesian {| theta := PI / 2; phi := 0 |})
                     (sphericalToCartesian {| theta := PI / 2; phi := PI / 2 |}))
               <= 3).
  { rewrite Hd, acos_0. pose proof PI2_1. pose proof PI_4. lra. }
  assert (Ht : 0 <= 1 / 2 <= 1) by lra.
  split; [split; [exact Hh | exact Ht]|].
  destruct (slerp_great_circle 0 {| theta := PI / 2; phi := 0 |}
              {| theta := PI / 2; phi := PI / 2 |} (1 / 2) Hh Ht)
    as (r & Hr & _ & Hu & _).
  exists r. split; assumption.
Defined.

(** ** The six named states *)

(** X7.  The table [commonStates] holds the six points where the axes meet
    the sphere, as the comment of [sphericalToCartesian] lays the axes
    out: [zero] and [one] at [z = 1] and [z = -1], [plus] and [minus] at
    [x = 1] and [x = -1], [plusI] and [minusI] at [y = 1] and [y = -1]. *)
Theorem commonStates_on_axes :
  sphericalToCartesian commonStates.zero = {| x := 0; y := 0; z := 1 |}
  /\ sphericalToCartesian commonStates.one = {| x := 0; y := 0; z := -1 |}
  /\ sphericalToCartesian commonStates.plus = {| x := 1; y := 0; z := 0 |}
  /\ sphericalToCartesian commonStates.minus = {| x := -1; y := 0; z := 0 |}
  /\ sphericalToCartesian commonStates.plusI = {| x := 0; y := 1; z := 0 |}
  /\ sphericalToCartesian commonStates.minusI = {| x := 0; y := -1; z := 0 |}.
Proof.
  unfold sphericalToCartesian, commonStates.zero, commonStates.one,
    commonStates.plus, commonStates.minus, commonStates.plusI,
    commonStates.minusI, Math_sin, Math_cos, Math_PI.
  cbn [theta phi].
  replace (3 * PI / 2) with (3 * (PI / 2)) by field.
  rewrite sin_0, cos_0, sin_PI, cos_PI, sin_PI2, cos_PI2, sin_3PI2, cos_3PI2.
  repeat split; f_equal; ring.
Qed.

(** ** More on the amplitude converters *)

Lemma while_full_turn_turns (fuel : nat) (p q : R) :
  while_full_turn fuel p = Ok q -> cos q = cos p /\ sin q = sin p.
Proof.
  revert p. induction fuel as [| fuel IH]; intros p; cbn [while_full_turn];
    destruct (Rle_dec (2 * Math_PI) p); try discriminate.
  - intros H; injection H as <-. auto.
  - intros H. apply IH in H. unfold Math_PI in H.
    rewrite <- (cos_shift_2PI (p - 2 * PI)), <- (sin_shift_2PI (p - 2 * PI)) in H.
    replace (p - 2 * PI + 2 * PI) with p in H by ring. exact H.
  - intros H; injection H as <-. auto.
Qed.

(** What [amplitudesToSpherical] answers on a state that is not zero, in
    terms of the two magnitudes and the two phases. *)
Lemma amplitudesToSpherical_nonzero (fuel : nat) (amp : ComplexAmplitude) :
  let alphaMag := sqrt (real (alpha amp) ^ 2 + imag (alpha amp) ^ 2) in
  let betaMag := sqrt (real (beta amp) ^ 2 + imag (beta amp) ^ 2) in
  let norm := sqrt (alphaMag ^ 2 + betaMag ^ 2) in
  0 < norm ->
  exists p,
    amplitudesToSpherical (S fuel) amp
    = Ok {| theta := 2 * acos (alphaMag / norm); phi := p |}
    /\ 0 <= alphaMag / norm <= 1
    /\ cos p = cos (Math_atan2 (imag (beta amp)) (real (beta amp))
                    - Math_atan2 (imag (alpha amp)) (real (alpha amp)))
    /\ sin p = sin (Math_atan2 (imag (beta amp)) (real (beta amp))
                    - Math_atan2 (imag (alpha amp)) (real (alpha amp)))
    /\ 0 <= p < 2 * PI.
Proof.
  cbv zeta. intros Hn. assert (HPI := PI_RGT_0).
  set (am := sqrt (real (alpha amp) ^ 2 + imag (alpha amp) ^ 2)) in *.
  set (bm := sqrt (real (beta amp) ^ 2 + imag (beta amp) ^ 2)) in *.
  set (n := sqrt (am ^ 2 + bm ^ 2)) in *.
  assert (Ham : 0 <= am) by apply sqrt_pos.
  assert (Hbm : 0 <= bm) by apply sqrt_pos.
  assert (Hnn : n * n = am ^ 2 + bm ^ 2) by (apply sqrt_sqrt; nra).
  assert (Hq : 0 <= am / n <= 1).
  { split.
    - apply Rmult_le_reg_r with n; [exact Hn|].
      unfold Rdiv. rewrite Rmult_assoc, Rinv_l by lra. lra.
    - apply Rmult_le_reg_r with n; [exact Hn|].
      unfold Rdiv. rewrite Rmult_assoc, Rinv_l by lra. nra. }
  rewrite amplitudesToSpherical_eq. cbv zeta. fold am bm n.
  destruct (Req_dec_T n 0) as [H | _]; [lra|].
  set (d := Math_atan2 (imag (beta amp)) (real (beta amp))
            - Math_atan2 (imag (alpha amp)) (real (alpha amp))).
  assert (Hd : - (2 * PI) < d < 2 * PI).
  { pose proof (Math_atan2_bound (imag (beta amp)) (real (beta amp))).
    pose proof (Math_atan2_bound (imag (alpha amp)) (real (alpha amp))).
    unfold d. lra. }
  destruct (while_negative_total fuel d) as (q & Hqe & Hq0 & Hq1); [lra|].
  rewrite Hqe. cbn [bind]. rewrite while_full_turn_done by lra. cbn [bind].
  rewrite clamp_id by exact Hq.
  exists q. split; [reflexivity|]. split; [exact Hq|].
  apply while_negative_turns in Hqe. destruct Hqe. repeat split; auto; lra.
Qed.

Lemma norm_of_magnitudes (amp : ComplexAmplitude) :
  let alphaMag := sqrt (real (alpha amp) ^ 2 + imag (alpha amp) ^ 2) in
  let betaMag := sqrt (real (beta amp) ^ 2 + imag (beta amp) ^ 2) in
  alphaMag ^ 2 = real (alpha amp) ^ 2 + imag (alpha amp) ^ 2
  /\ betaMag ^ 2 = real (beta amp) ^ 2 + imag (beta amp) ^ 2
  /\ sqrt (alphaMag ^ 2 + betaMag ^ 2) ^ 2
     = real (alpha amp) ^ 2 + imag (alpha amp) ^ 2
       + (real (beta amp) ^ 2 + imag (beta amp) ^ 2).
Proof.
  cbv zeta. rewrite !pow2_sqrt by nra. repeat split; reflexivity.
Qed.

(** X8.  On a state whose squared norm is between [2^-1000] and [2^1000]
    (nothing overflows or underflows), normalised or not, the [theta]
    returned carries the two probabilities:
    [cos^2 (theta / 2) = |alpha|^2 / (|alpha|^2 + |beta|^2)] and
    [sin^2 (theta / 2) = |beta|^2 / (|alpha|^2 + |beta|^2)], with [theta]
    in [[0, PI]] and [phi] in [[0, 2 PI)]. *)
Theorem amplitudesToSpherical_probabilities (fuel : nat) (amp : ComplexAmplitude) :
  let pa := real (alpha amp) ^ 2 + imag (alpha amp) ^ 2 in
  let pb := real (beta amp) ^ 2 + imag (beta amp) ^ 2 in
  well_scaled (squared_norm amp) ->
  exists s,
    amplitudesToSpherical (S fuel) amp = Ok s
    /\ cos (theta s / 2) ^ 2 = pa / (pa + pb)
    /\ sin (theta s / 2) ^ 2 = pb / (pa + pb)
    /\ 0 <= theta s <= PI /\ 0 <= phi s < 2 * PI.
Proof.
  cbv zeta. intros Hpos. apply well_scaled_pos in Hpos.
  unfold squared_norm in Hpos.
  destruct (norm_of_magnitudes amp) as (Ha & Hb & Hn). cbv zeta in Ha, Hb, Hn.
  set (am := sqrt (real (alpha amp) ^ 2 + imag (alpha amp) ^ 2)) in *.
  set (bm := sqrt (real (beta amp) ^ 2 + imag (beta amp) ^ 2)) in *.
  set (n := sqrt (am ^ 2 + bm ^ 2)) in *.
  assert (Hn0 : 0 < n).
  { unfold n. apply sqrt_lt_R0. rewrite Ha, Hb. exact Hpos. }
  destruct (amplitudesToSpherical_nonzero fuel amp Hn0)
    as (p & Hp & Hq & _ & _ & Hrange).
  fold am bm n in Hp, Hq.
  exists {| theta := 2 * acos (am / n); phi := p |}.
  split; [exact Hp|]. cbn [theta phi].
  replace (2 * acos (am / n) / 2) with (acos (am / n)) by field.
  pose proof (acos_half _ Hq) as Hh.
  assert (Hc : cos (acos (am / n)) ^ 2
               = (real (alpha amp) ^ 2 + imag (alpha amp) ^ 2)
                 / (real (alpha amp) ^ 2 + imag (alpha amp) ^ 2
                    + (real (beta amp) ^ 2 + imag (beta amp) ^ 2))).
  { rewrite cos_acos by lra. rewrite <- Hn, <- Ha. field. lra. }
  split; [exact Hc|]. split.
  - pose proof (sin2_cos2 (acos (am / n))) as H. unfold Rsqr in H.
    replace (sin (acos (am / n)) ^ 2) with (1 - cos (acos (am / n)) ^ 2) by nra.
    rewrite Hc. field. lra.
  - split; lra.
Qed.

Lemma amplitudesToSpherical_probabilities_witness :
  let amp := {| alpha := {| real := 3; imag := 0 |};
                beta := {| real := 0; imag := 4 |} |} in
  well_scaled (squared_norm amp)
  /\ exists s,
       amplitudesToSpherical 1 amp = Ok s
       /\ cos (theta s / 2) ^ 2 = 9 / 25.
Proof.
  cbv zeta.
  assert (H : well_scaled
                (squared_norm {| alpha := {| real := 3; imag := 0 |};
                                 beta := {| real := 0; imag := 4 |} |})).
  { apply well_scaled_moderate. unfold squared_norm. cbn [alpha beta real imag].
    lra. }
  split; [exact H|].
  destruct (amplitudesToSpherical_probabilities 0
              {| alpha := {| real := 3; imag := 0 |};
                 beta := {| real := 0; imag := 4 |} |} H)
    as (s & Hs & Hc & _).
  exists s. split; [exact Hs|]. rewrite Hc. cbn [alpha beta real imag]. field.
Defined.

(** X9.  The amplitude round trip the other way: a normalised state whose
    [alpha] is real and not negative, which is the form
    [sphericalToAmplitudes] produces, comes back from
    [sphericalToAmplitudes (amplitudesToSpherical (amp))] as it is. *)
Theorem spherical_amplitudes_roundtrip (fuel : nat) (amp : ComplexAmplitude) :
  imag (alpha amp) = 0 -> 0 <= real (alpha amp) ->
  real (alpha amp) ^ 2 + (real (beta amp) ^ 2 + imag (beta amp) ^ 2) = 1 ->
  exists s,
    amplitudesToSpherical (S fuel) amp = Ok s
    /\ sphericalToAmplitudes s = amp.
Proof.
  intros Him Hre Hnorm.
  destruct amp as [[a ai] [br bi]]. cbn [alpha beta real imag] in *. subst ai.
  set (amp := {| alpha := {| real := a; imag := 0 |};
                 beta := {| real := br; imag := bi |} |}).
  destruct (norm_of_magnitudes amp) as (Ha & Hb & Hn).
  cbv zeta in Ha, Hb, Hn. unfold amp in Ha, Hb, Hn.
  cbn [alpha beta real imag] in Ha, Hb, Hn.
  assert (Eam : sqrt (a ^ 2 + 0 ^ 2) = a).
  { replace (a ^ 2 + 0 ^ 2) with (a ^ 2) by ring. apply sqrt_pow2. exact Hre. }
  assert (En : sqrt (sqrt (a ^ 2 + 0 ^ 2) ^ 2 + sqrt (br ^ 2 + bi ^ 2) ^ 2) = 1).
  { rewrite Ha, Hb. replace (a ^ 2 + 0 ^ 2 + (br ^ 2 + bi ^ 2)) with 1 by lra.
    apply sqrt_1. }
  destruct (amplitudesToSpherical_nonzero fuel amp) as (p & Hp & Hq & Hc & Hs & _).
  { unfold amp. cbn [alpha beta real imag]. rewrite En. lra. }
  unfold amp in Hp, Hq, Hc, Hs. cbn [alpha beta real imag] in Hp, Hq, Hc, Hs.
  rewrite En, Eam in Hp, Hq.
  replace (a / 1) with a in Hp, Hq by field.
  assert (Hphase : Math_atan2 0 a = 0).
  { unfold Math_atan2. destruct (Rlt_dec 0 a).
    - unfold Rdiv. rewrite Rmult_0_l. apply atan_0.
    - destruct (Rlt_dec a 0); [lra|].
      destruct (Rlt_dec 0 0); [lra | reflexivity]. }
  rewrite Hphase, Rminus_0_r in Hc, Hs.
  eexists; split; [exact Hp|].
  unfold sphericalToAmplitudes, Math_sin, Math_cos. cbn [theta phi].
  replace (2 * acos a / 2) with (acos a) by field.
  rewrite cos_acos by lra. rewrite sin_acos by lra. rewrite Hc, Hs.
  assert (Hsq : sqrt (1 - a²) = sqrt (br ^ 2 + bi ^ 2)).
  { f_equal. unfold Rsqr. lra. }
  rewrite Hsq.
  destruct (Req_dec (br ^ 2 + bi ^ 2) 0) as [H0 | H0].
  - assert (br = 0) by nra. assert (bi = 0) by nra. subst br bi.
    replace (0 ^ 2 + 0 ^ 2) with 0 by ring. rewrite sqrt_0, !Rmult_0_l.
    reflexivity.
  - assert (Hpos : 0 < br ^ 2 + bi ^ 2) by nra.
    destruct (Math_atan2_direction bi br Hpos) as [Hx Hy].
    rewrite Hx, Hy. reflexivity.
Qed.

Lemma spherical_amplitudes_roundtrip_witness :
  let amp := {| alpha := {| real := 3 / 5; imag := 0 |};
                beta := {| real := 0; imag := 4 / 5 |} |} in
  (imag (alpha amp) = 0 /\ 0 <= real (alpha amp)
   /\ real (alpha amp) ^ 2 + (real (beta amp) ^ 2 + imag (beta amp) ^ 2) = 1)
  /\ exists s,
       amplitudesToSpherical 1 amp = Ok s /\ sphericalToAmplitudes s = amp.
Proof.
  cbv zeta. cbn [alpha beta real imag].
  split; [repeat split; lra|].
  apply (spherical_amplitudes_roundtrip 0
           {| alpha := {| real := 3 / 5; imag := 0 |};
              beta := {| real := 0; imag := 4 / 5 |} |});
    cbn [alpha beta real imag]; lra.
Defined.

(** ** Global phase *)

Lemma reduce_angle (c : R) : exists k : Z, - PI < c + 2 * PI * IZR k <= PI.
Proof.
  assert (HPI := PI_RGT_0).
  destruct (archimed ((- c - PI) / (2 * PI))) as [H1 H2].
  exists (up ((- c - PI) / (2 * PI))).
  set (u := IZR (up ((- c - PI) / (2 * PI)))) in *.
  assert (E : (- c - PI) / (2 * PI) * (2 * PI) = - c - PI) by (field; lra).
  split.
  - assert ((- c - PI) / (2 * PI) * (2 * PI) < u * (2 * PI))
      by (apply Rmult_lt_compat_r; lra). lra.
  - assert ((u - (- c - PI) / (2 * PI)) * (2 * PI) <= 1 * (2 * PI))
      by (apply Rmult_le_compat_r; lra). lra.
Qed.

Lemma turns_Z (a : R) (k : Z) :
  sin (a + 2 * PI * IZR k) = sin a /\ cos (a + 2 * PI * IZR k) = cos a.
Proof.
  destruct (Z_le_gt_dec 0 k) as [Hk | Hk].
  - rewrite <- (Z2Nat.id k Hk), <- INR_IZR_INZ.
    replace (a + 2 * PI * INR (Z.to_nat k)) with (a + 2 * INR (Z.to_nat k) * PI)
      by ring.
    split; [apply sin_period | apply cos_period].
  - assert (Hk' : (0 <= - k)%Z) by lia.
    replace (IZR k) with (- IZR (- k)) by (rewrite opp_IZR; ring).
    rewrite <- (Z2Nat.id (- k) Hk'), <- INR_IZR_INZ.
    set (n := Z.to_nat (- k)).
    rewrite <- (sin_period (a + 2 * PI * - INR n) n).
    rewrite <- (cos_period (a + 2 * PI * - INR n) n).
    replace (a + 2 * PI * - INR n + 2 * INR n * PI) with a by ring. auto.
Qed.

Lemma Math_atan2_mod (rho c : R) :
  0 < rho ->
  exists k : Z, Math_atan2 (rho * sin c) (rho * cos c) = c + 2 * PI * IZR k.
Proof.
  intros Hrho. destruct (reduce_angle c) as [k Hk]. exists k.
  destruct (turns_Z c k) as [Hs Hc]. rewrite <- Hs, <- Hc.
  apply Math_atan2_polar; assumption.
Qed.

Lemma rotate_magnitude (gamma : R) (c : Complex) :
  real (rotate gamma c) ^ 2 + imag (rotate gamma c) ^ 2
  = real c ^ 2 + imag c ^ 2.
Proof.
  unfold rotate. cbn [real imag].
  pose proof (sin2_cos2 gamma) as H. unfold Rsqr in H.
  replace ((cos gamma * real c - sin gamma * imag c) ^ 2
           + (sin gamma * real c + cos gamma * imag c) ^ 2)
    with ((sin gamma * sin gamma + cos gamma * cos gamma)
          * (real c ^ 2 + imag c ^ 2)) by ring.
  rewrite H. ring.
Qed.

(** Turning a complex number that is not zero by [gamma] adds [gamma] to
    its phase, up to full turns. *)
Lemma rotate_phase (gamma : R) (c : Complex) :
  0 < real c ^ 2 + imag c ^ 2 ->
  exists k : Z,
    Math_atan2 (imag (rotate gamma c)) (real (rotate gamma c))
    = Math_atan2 (imag c) (real c) + gamma + 2 * PI * IZR k.
Proof.
  intros Hpos.
  destruct (Math_atan2_direction (imag c) (real c) Hpos) as [Hx Hy].
  set (rho := sqrt (real c ^ 2 + imag c ^ 2)) in *.
  set (a := Math_atan2 (imag c) (real c)) in *.
  assert (Hrho : 0 < rho) by (apply sqrt_lt_R0; exact Hpos).
  destruct (Math_atan2_mod rho (a + gamma) Hrho) as [k Hk].
  exists k. rewrite <- Hk. unfold rotate. cbn [real imag].
  rewrite sin_plus, cos_plus, <- Hx, <- Hy. f_equal; ring.
Qed.

(** Two angles a whole number of turns apart are normalised to the same
    angle. *)
Lemma while_negative_mod (fuel : nat) (d d' : R) (m : Z) :
  - (2 * PI) < d < 2 * PI -> - (2 * PI) < d' < 2 * PI ->
  d' = d + 2 * PI * IZR m ->
  while_negative (S fuel) d' = while_negative (S fuel) d.
Proof.
  intros Hd Hd' E. assert (HPI := PI_RGT_0).
  assert (Hint : forall (q q' : R) (j : Z),
             0 <= q < 2 * PI -> 0 <= q' < 2 * PI ->
             q' = q + 2 * PI * IZR j -> q' = q).
  { intros q q' j Hq Hq' Ej.
    assert (H1 : -1 < IZR j < 1).
    { split.
      - apply Rmult_lt_reg_l with (2 * PI); [lra|]. lra.
      - apply Rmult_lt_reg_l with (2 * PI); [lra|]. lra. }
    destruct H1 as [H1 H2].
    apply lt_IZR in H2. replace (-1) with (IZR (-1)) in H1 by reflexivity.
    apply lt_IZR in H1. assert (j = 0%Z) by lia. subst j.
    rewrite Ej. ring. }
  destruct (Rlt_le_dec d 0) as [Hn | Hn];
    destruct (Rlt_le_dec d' 0) as [Hn' | Hn'].
  - rewrite !while_negative_once by lra. f_equal.
    apply (Hint (d + 2 * PI) (d' + 2 * PI) m); lra.
  - rewrite (while_negative_once fuel d) by lra.
    rewrite (while_negative_done (S fuel) d') by lra.
    f_equal. apply (Hint (d + 2 * PI) d' (m - 1)%Z); try lra.
    rewrite minus_IZR. lra.
  - rewrite (while_negative_once fuel d') by lra.
    rewrite (while_negative_done (S fuel) d) by lra.
    f_equal. apply (Hint d (d' + 2 * PI) (m + 1)%Z); try lra.
    rewrite plus_IZR. lra.
  - rewrite !while_negative_done by lra. f_equal.
    apply (Hint d d' m); lra.
Qed.

Lemma amplitudesToSpherical_phase (fuel : nat) (gamma : R)
    (amp : ComplexAmplitude) :
  0 < real (alpha amp) ^ 2 + imag (alpha amp) ^ 2 ->
  0 < real (beta amp) ^ 2 + imag (beta amp) ^ 2 ->
  amplitudesToSpherical (S fuel) (global_phase gamma amp)
  = amplitudesToSpherical (S fuel) amp.
Proof.
  intros Ha Hb. rewrite !amplitudesToSpherical_eq. cbv zeta.
  unfold global_phase. cbn [alpha beta].
  rewrite !rotate_magnitude.
  destruct (Req_dec_T _ 0) as [H0 | H0]; [reflexivity|].
  destruct (rotate_phase gamma (alpha amp) Ha) as [ka Hka].
  destruct (rotate_phase gamma (beta amp) Hb) as [kb Hkb].
  rewrite Hka, Hkb.
  pose proof (Math_atan2_bound (imag (beta amp)) (real (beta amp))) as B1.
  pose proof (Math_atan2_bound (imag (alpha amp)) (real (alpha amp))) as B2.
  pose proof (Math_atan2_bound (imag (rotate gamma (beta amp)))
                (real (rotate gamma (beta amp)))) as B3.
  pose proof (Math_atan2_bound (imag (rotate gamma (alpha amp)))
                (real (rotate gamma (alpha amp)))) as B4.
  rewrite Hka in B4. rewrite Hkb in B3.
  rewrite (while_negative_mod fuel
             (Math_atan2 (imag (beta amp)) (real (beta amp))
              - Math_atan2 (imag (alpha amp)) (real (alpha amp)))
             _ (kb - ka)%Z); [reflexivity | lra | lra |].
  rewrite minus_IZR. ring.
Qed.



(** ** More on the animation driver *)

Lemma frame_idle (fuel : nat) (timestamp : R) (w : World) :
  frames w = [] -> frame fuel timestamp w = w.
Proof.
  intros H. unfold frame. rewrite H. cbn [fold_left].
  destruct w as [h f n c d l]. cbn in *. subst f. reflexivity.
Qed.

Lemma run_ticks_idle (fuel : nat) (B : SphericalCoordinates)
    (cfg : AnimationConfig) (ticks : list Tick) (w : World) :
  deps w = Some (deps_of B cfg) -> frames w = [] ->
  run_ticks fuel B cfg ticks w = w.
Proof.
  intros Hd Hf. unfold run_ticks.
  induction ticks as [| [ts |] l IH]; cbn [fold_left tick].
  - reflexivity.
  - rewrite frame_idle by exact Hf. exact IH.
  - rewrite render_same_props by exact Hd. exact IH.
Qed.

(** X11.  The first render plays no animation, whatever the configuration:
    the hook holds the target, no frame is requested and no callback is
    called, and this stays so under any display refreshes and renders with
    the same props. *)
Theorem mount_is_idle (fuel : nat) (targetState : SphericalCoordinates)
    (config : AnimationConfig) (ticks : list Tick) :
  let w := run_ticks fuel targetState config ticks (mount targetState config) in
  currentState (hook w) = Ok targetState
  /\ frames w = [] /\ log w = [] /\ animationRef (hook w) = None.
Proof.
  cbv zeta. rewrite run_ticks_idle by reflexivity.
  cbn. auto.
Qed.

(** X12.  Single flight: in every world the hook can reach at most one
    frame is requested, and it is the one whose handle [animationRef]
    holds, for the target [prevTargetRef] tracks. *)
Theorem single_flight (fuel : nat) (w : World) :
  reachable fuel w ->
  (length (frames w) <= 1)%nat
  /\ forall id cl, In (id, cl) (frames w) ->
       animationRef (hook w) = Some id
       /\ cl_target cl = prevTargetRef (hook w).
Proof.
  intros H. apply reachable_Inv in H.
  destruct H as (_ & _ & [Hf | (id & cl & Hf & Href & Hcl & _)]); rewrite Hf.
  - split; [cbn; lia | intros ? ? []].
  - split; [cbn; lia|]. intros id' cl' [E | []]. inversion E; subst. auto.
Qed.

Lemma single_flight_witness :
  let cfg := {| enabled := None; duration := None; easing := None |} in
  let w := render {| theta := 1; phi := 0 |} cfg
             (mount {| theta := 0; phi := 0 |} cfg) in
  reachable 1 w
  /\ (length (frames w) <= 1)%nat
  /\ forall id cl, In (id, cl) (frames w) ->
       animationRef (hook w) = Some id
       /\ cl_target cl = prevTargetRef (hook w).
Proof.
  cbv zeta.
  assert (H : reachable 1
                (render {| theta := 1; phi := 0 |}
                   {| enabled := None; duration := None; easing := None |}
                   (mount {| theta := 0; phi := 0 |}
                      {| enabled := None; duration := None; easing := None |})))
    by apply reach_render, reach_mount.
  split; [exact H|]. apply (single_flight 1 _ H).
Defined.

(** A render whose target has the tracked angles but whose dependency
    array differs: the clean-up cancels the frame, the effect returns at
    [if (!targetChanged) return;]. *)
Lemma render_other_config (w : World) (B : SphericalCoordinates)
    (cfg : AnimationConfig) (d : Deps) :
  Inv w ->
  theta (prevTargetRef (hook w)) = theta B ->
  phi (prevTargetRef (hook w)) = phi B ->
  deps w = Some d -> same_deps d (deps_of B cfg) = false ->
  render B cfg w =
  {| hook := hook w; frames := []; next_frame := next_frame w;
     cleanup := false; deps := Some (deps_of B cfg); log := log w |}.
Proof.
  intros (Hfirst & _ & Hone) Et Ep Hd Hsame.
  destruct (cleanup_clears w Hone) as (Hf1 & Hh1 & Hn1 & Hl1).
  unfold render. rewrite Hd, Hsame.
  apply Req_b_true in Et, Ep. rewrite Et, Ep. cbn [negb orb].
  set (w1 := if cleanup w then cancel_current w else w) in *.
  unfold effect. rewrite Hh1, Hfirst. cbn [negb].
  unfold set_deps, set_cleanup. cbn [hook frames next_frame cleanup deps log].
  rewrite Hh1, Hf1, Hn1, Hl1. reflexivity.
Qed.

(** A render with a new target while animation is disabled. *)
Lemma render_disabled (w : World) (B : SphericalCoordinates)
    (cfg : AnimationConfig) :
  Inv w ->
  theta (prevTargetRef (hook w)) <> theta B
  \/ phi (prevTargetRef (hook w)) <> phi B ->
  cfg_enabled cfg = false ->
  render B cfg w =
  {| hook :=
       {| currentState := Ok B;
          animationRef := animationRef (hook w);
          startStateRef := startStateRef (hook w);
          startTimeRef := startTimeRef (hook w);
          isFirstRender := false;
          prevTargetRef := B |};
     frames := []; next_frame := next_frame w;
     cleanup := false; deps := Some (deps_of B cfg); log := log w |}.
Proof.
  intros (Hfirst & (d0 & Hd & Hdt & Hdp) & Hone) Hdiff Hen.
  destruct (cleanup_clears w Hone) as (Hf1 & Hh1 & Hn1 & Hl1).
  unfold render. rewrite Hd.
  assert (Hsame : same_deps d0 (deps_of B cfg) = false).
  { destruct (same_deps d0 (deps_of B cfg)) eqn:E; [|reflexivity].
    apply same_deps_target in E. destruct E as [E1 E2].
    destruct Hdiff; congruence. }
  rewrite Hsame.
  assert (Hchg : negb (Req_b (theta (prevTargetRef (hook w))) (theta B))
                 || negb (Req_b (phi (prevTargetRef (hook w))) (phi B)) = true).
  { destruct Hdiff as [H | H]; apply Req_b_false in H; rewrite H;
      [reflexivity | apply orb_true_r]. }
  rewrite Hchg.
  set (w1 := if cleanup w then cancel_current w else w) in *.
  unfold effect. rewrite Hh1, Hfirst, Hen. cbn [negb].
  unfold set_deps, set_cleanup, set_hook.
  cbn [hook frames next_frame cleanup deps log].
  rewrite Hf1, Hn1, Hl1, ?Hfirst. reflexivity.
Qed.

Lemma same_deps_eq (a b : Deps) : same_deps a b = true -> a = b.
Proof.
  unfold same_deps. intros H.
  apply andb_prop in H as [H He]. apply andb_prop in H as [H Hd].
  apply andb_prop in H as [H Hen]. apply andb_prop in H as [Ht Hp].
  destruct a, b; cbn in *.
  apply Req_b_true in Ht, Hp, Hd. apply eqb_prop in Hen. subst.
  f_equal. destruct d_easing0, d_easing1; (reflexivity || discriminate).
Qed.

Lemma changed_deps (w : World) (B : SphericalCoordinates) (cfg : AnimationConfig) :
  Inv w -> deps w <> Some (deps_of B cfg) ->
  exists d, deps w = Some d /\ same_deps d (deps_of B cfg) = false.
Proof.
  intros (_ & (d & Hd & _) & _) Hne. exists d. split; [exact Hd|].
  destruct (same_deps d (deps_of B cfg)) eqn:E; [|reflexivity].
  apply same_deps_eq in E. subst d. contradiction.
Qed.

(** X13.  With animation disabled a new target is taken at once: the state
    jumps to it, a frame still requested is cancelled, no callback is
    called, and nothing happens afterwards while the props stay. *)
Theorem disabled_snaps (fuel : nat) (w : World) (B : SphericalCoordinates)
    (cfg : AnimationConfig) :
  reachable fuel w ->
  theta (prevTargetRef (hook w)) <> theta B
  \/ phi (prevTargetRef (hook w)) <> phi B ->
  cfg_enabled cfg = false ->
  let w' := render B cfg w in
  currentState (hook w') = Ok B /\ frames w' = [] /\ log w' = log w
  /\ forall ticks, run_ticks fuel B cfg ticks w' = w'.
Proof.
  intros Hreach Hdiff Hen. cbv zeta.
  rewrite (render_disabled w B cfg (reachable_Inv fuel w Hreach) Hdiff Hen).
  cbn [hook currentState frames log]. repeat split.
  intros ticks. apply run_ticks_idle; reflexivity.
Qed.

Lemma disabled_snaps_witness :
  let cfg := {| enabled := None; duration := None; easing := None |} in
  let off := {| enabled := Some false; duration := None; easing := None |} in
  let B := {| theta := 2; phi := 0 |} in
  let w := render {| theta := 1; phi := 0 |} cfg
             (mount {| theta := 0; phi := 0 |} cfg) in
  (reachable 1 w
   /\ (theta (prevTargetRef (hook w)) <> theta B
       \/ phi (prevTargetRef (hook w)) <> phi B)
   /\ cfg_enabled off = false)
  /\ currentState (hook (render B off w)) = Ok B
  /\ frames (render B off w) = [].
Proof.
  cbv zeta.
  set (cfg := {| enabled := None; duration := None; easing := None |}).
  set (off := {| enabled := Some false; duration := None; easing := None |}).
  set (A := {| theta := 1; phi := 0 |}).
  set (B := {| theta := 2; phi := 0 |}).
  set (T0 := {| theta := 0; phi := 0 |}).
  assert (Hprev : prevTargetRef (hook (render A cfg (mount T0 cfg))) = A).
  { rewrite render_supersedes;
      [reflexivity | apply Inv_mount | left; cbn; lra | reflexivity]. }
  assert (Hreach : reachable 1 (render A cfg (mount T0 cfg)))
    by apply reach_render, reach_mount.
  assert (Hdiff : theta (prevTargetRef (hook (render A cfg (mount T0 cfg))))
                  <> theta B
                  \/ phi (prevTargetRef (hook (render A cfg (mount T0 cfg))))
                     <> phi B)
    by (left; rewrite Hprev; cbn; lra).
  split; [repeat split; assumption|].
  destruct (disabled_snaps 1 _ B off Hreach Hdiff eq_refl) as (H1 & H2 & _).
  split; assumption.
Defined.

(** X14.  A change of [duration], [easing] or [enabled] alone, while an
    animation is in flight, stops it where it is: the clean-up cancels the
    requested frame, the effect returns because the target did not change,
    and no frame is requested again.  The state keeps its mid-flight value
    and [onEnd] is not called, whatever refreshes and renders with these
    props follow. *)
Theorem config_change_freezes (fuel : nat) (w : World)
    (B : SphericalCoordinates) (cfg : AnimationConfig) :
  reachable fuel w -> in_flight w ->
  theta (prevTargetRef (hook w)) = theta B ->
  phi (prevTargetRef (hook w)) = phi B ->
  deps w <> Some (deps_of B cfg) ->
  let w' := render B cfg w in
  frames w' = [] /\ log w' = log w
  /\ currentState (hook w') = currentState (hook w)
  /\ forall ticks, run_ticks fuel B cfg ticks w' = w'.
Proof.
  intros Hreach _ Et Ep Hne. cbv zeta.
  pose proof (reachable_Inv fuel w Hreach) as HI.
  destruct (changed_deps w B cfg HI Hne) as (d & Hd & Hsame).
  rewrite (render_other_config w B cfg d HI Et Ep Hd Hsame).
  cbn [hook frames log]. repeat split.
  intros ticks. apply run_ticks_idle; reflexivity.
Qed.

Lemma config_change_freezes_witness :
  let cfg := {| enabled := None; duration := None; easing := None |} in
  let slow := {| enabled := None; duration := Some 500; easing := None |} in
  let A := {| theta := 1; phi := 0 |} in
  let w := render A cfg (mount {| theta := 0; phi := 0 |} cfg) in
  (reachable 1 w /\ in_flight w
   /\ theta (prevTargetRef (hook w)) = theta A
   /\ phi (prevTargetRef (hook w)) = phi A
   /\ deps w <> Some (deps_of A slow))
  /\ frames (render A slow w) = []
  /\ log (render A slow w) = log w.
Proof.
  cbv zeta.
  set (cfg := {| enabled := None; duration := None; easing := None |}).
  set (slow := {| enabled := None; duration := Some 500; easing := None |}).
  set (A := {| theta := 1; phi := 0 |}).
  set (T0 := {| theta := 0; phi := 0 |}).
  assert (HA : render A cfg (mount T0 cfg) =
               {| hook :=
                    {| currentState := Ok T0;
                       animationRef := Some 1%positive;
                       startStateRef := Ok T0;
                       startTimeRef := None;
                       isFirstRender := false;
                       prevTargetRef := A |};
                  frames := [(1%positive,
                              {| cl_target := A; cl_duration := 300;
                                 cl_easing := easeInOut |})];
                  next_frame := 2%positive;
                  cleanup := true;
                  deps := Some (deps_of A cfg);
                  log := [AnimationStart A] |}).
  { rewrite render_supersedes;
      [reflexivity | apply Inv_mount | left; cbn; lra | reflexivity]. }
  assert (Hreach : reachable 1 (render A cfg (mount T0 cfg)))
    by apply reach_render, reach_mount.
  assert (Hfl : in_flight (render A cfg (mount T0 cfg)))
    by (unfold in_flight; rewrite HA; cbn; discriminate).
  assert (Et : theta (prevTargetRef (hook (render A cfg (mount T0 cfg))))
               = theta A) by (rewrite HA; reflexivity).
  assert (Ep : phi (prevTargetRef (hook (render A cfg (mount T0 cfg))))
               = phi A) by (rewrite HA; reflexivity).
  assert (Hne : deps (render A cfg (mount T0 cfg)) <> Some (deps_of A slow)).
  { rewrite HA. cbn [deps]. intros E. injection E as E.
    unfold cfg_duration, cfg, slow in E. cbn [duration] in E. lra. }
  split; [repeat split; assumption|].
  destruct (config_change_freezes 1 _ A slow Hreach Hfl Et Ep Hne)
    as (H1 & H2 & _).
  split; assumption.
Defined.

(** What a refresh does while one frame is requested, before the duration
    has passed. *)
Lemma frame_continues (fuel : nat) (timestamp : R) (w : World)
    (id : positive) (cl : Closure) :
  frames w = [(id, cl)] ->
  let st := match startTimeRef (hook w) with
            | None => timestamp | Some t0 => t0 end in
  0 < cl_duration cl -> timestamp - st < cl_duration cl ->
  frame fuel timestamp w =
  {| hook :=
       {| currentState :=
            (s <- startStateRef (hook w) ;;
             slerp fuel s (cl_target cl)
               (easingFunctions (cl_easing cl)
                  ((timestamp - st) / cl_duration cl)));
          animationRef := Some (next_frame w);
          startStateRef := startStateRef (hook w);
          startTimeRef := Some st;
          isFirstRender := isFirstRender (hook w);
          prevTargetRef := prevTargetRef (hook w) |};
     frames := [(next_frame w, cl)];
     next_frame := Pos.succ (next_frame w);
     cleanup := cleanup w; deps := deps w; log := log w |}.
Proof.
  intros Hf st Hdur Hel. unfold frame. rewrite Hf. cbn [fold_left snd].
  unfold animate. cbn [hook]. fold st.
  assert (Hq : (timestamp - st) / cl_duration cl < 1).
  { apply Rmult_lt_reg_r with (cl_duration cl); [exact Hdur|].
    unfold Rdiv. rewrite Rmult_assoc, Rinv_l by lra. lra. }
  unfold progress_of. destruct (Req_dec_T (cl_duration cl) 0) as [H | _]; [lra|].
  unfold Math_min, Rmin.
  destruct (Rle_dec ((timestamp - st) / cl_duration cl) 1) as [_ | H]; [|lra].
  cbn [progress_lt_1 bind].
  destruct (Rlt_dec ((timestamp - st) / cl_duration cl) 1) as [_ | H]; [|lra].
  reflexivity.
Qed.

(** What a refresh does once the duration has passed. *)
Lemma frame_ends (fuel : nat) (timestamp : R) (w : World)
    (id : positive) (cl : Closure) :
  frames w = [(id, cl)] ->
  let st := match startTimeRef (hook w) with
            | None => timestamp | Some t0 => t0 end in
  0 < cl_duration cl -> cl_duration cl <= timestamp - st ->
  frame fuel timestamp w =
  {| hook :=
       {| currentState :=
            (s <- startStateRef (hook w) ;; slerp fuel s (cl_target cl) 1);
          animationRef := None;
          startStateRef := startStateRef (hook w);
          startTimeRef := Some st;
          isFirstRender := isFirstRender (hook w);
          prevTargetRef := prevTargetRef (hook w) |};
     frames := [];
     next_frame := next_frame w;
     cleanup := cleanup w; deps := deps w;
     log := log w ++ [AnimationEnd (cl_target cl)] |}.
Proof.
  intros Hf st Hdur Hel. unfold frame. rewrite Hf. cbn [fold_left snd].
  unfold animate. cbn [hook]. fold st.
  assert (Hq : 1 <= (timestamp - st) / cl_duration cl).
  { apply Rmult_le_reg_r with (cl_duration cl); [exact Hdur|].
    unfold Rdiv. rewrite Rmult_assoc, Rinv_l by lra. lra. }
  unfold progress_of. destruct (Req_dec_T (cl_duration cl) 0) as [H | _]; [lra|].
  assert (Hmin : Math_min ((timestamp - st) / cl_duration cl) 1 = 1).
  { unfold Math_min, Rmin.
    destruct (Rle_dec ((timestamp - st) / cl_duration cl) 1); lra. }
  rewrite Hmin. cbn [progress_lt_1 bind].
  destruct (Rlt_dec 1 1) as [H | _]; [lra|].
  assert (He : easingFunctions (cl_easing cl) 1 = 1).
  { destruct (cl_easing cl); cbn [easingFunctions]; try lra.
    destruct (Rlt_dec 1 (1 / 2)); lra. }
  rewrite He. reflexivity.
Qed.

(** X15.  While one frame is requested and less than the duration has
    passed since the first refresh of the animation, a refresh sets the
    state to the interpolation at the eased fraction of time passed,
    calls no callback, and requests exactly one more frame for the same
    closure. *)
Theorem frame_in_progress (fuel : nat) (timestamp : R) (w : World)
    (id : positive) (cl : Closure) :
  frames w = [(id, cl)] ->
  let st := match startTimeRef (hook w) with
            | None => timestamp | Some t0 => t0 end in
  0 < cl_duration cl -> timestamp - st < cl_duration cl ->
  let w' := frame fuel timestamp w in
  currentState (hook w')
  = (s <- startStateRef (hook w) ;;
     slerp fuel s (cl_target cl)
       (easingFunctions (cl_easing cl) ((timestamp - st) / cl_duration cl)))
  /\ frames w' = [(next_frame w, cl)]
  /\ animationRef (hook w') = Some (next_frame w)
  /\ startTimeRef (hook w') = Some st
  /\ log w' = log w.
Proof.
  intros Hf st Hdur Hel. cbv zeta.
  rewrite (frame_continues fuel timestamp w id cl Hf Hdur Hel).
  cbn. auto.
Qed.

(** X16.  Once the duration has passed, a refresh sets the state to
    [slerp (start, target, 1)], calls [onEnd] once, clears [animationRef]
    and requests no frame; later refreshes change nothing. *)
Theorem frame_completes (fuel : nat) (timestamp : R) (w : World)
    (id : positive) (cl : Closure) :
  frames w = [(id, cl)] ->
  let st := match startTimeRef (hook w) with
            | None => timestamp | Some t0 => t0 end in
  0 < cl_duration cl -> cl_duration cl <= timestamp - st ->
  let w' := frame fuel timestamp w in
  currentState (hook w')
  = (s <- startStateRef (hook w) ;; slerp fuel s (cl_target cl) 1)
  /\ frames w' = []
  /\ animationRef (hook w') = None
  /\ log w' = log w ++ [AnimationEnd (cl_target cl)]
  /\ forall later, frame fuel later w' = w'.
Proof.
  intros Hf st Hdur Hel. cbv zeta.
  rewrite (frame_ends fuel timestamp w id cl Hf Hdur Hel).
  cbn [hook currentState frames animationRef log].
  do 4 (split; [reflexivity|]).
  intros later. apply frame_idle. reflexivity.
Qed.

Lemma frame_in_progress_witness :
  let cl := {| cl_target := {| theta := 1; phi := 0 |}; cl_duration := 300;
               cl_easing := linear |} in
  let w := {| hook := {| currentState := Ok {| theta := 0; phi := 0 |};
                         animationRef := Some 1%positive;
                         startStateRef := Ok {| theta := 0; phi := 0 |};
                         startTimeRef := Some 0;
                         isFirstRender := false;
                         prevTargetRef := {| theta := 1; phi := 0 |} |};
              frames := [(1%positive, cl)]; next_frame := 2%positive;
              cleanup := true; deps := None; log := [] |} in
  (frames w = [(1%positive, cl)] /\ 0 < cl_duration cl
   /\ 100 - 0 < cl_duration cl)
  /\ frames (frame 1 100 w) = [(2%positive, cl)]
  /\ log (frame 1 100 w) = [].
Proof.
  cbv zeta. cbn [frames cl_duration]. split; [repeat split; lra|].
  match goal with |- frames (frame 1 100 ?w0) = [(_, ?c)] /\ _ =>
    destruct (frame_in_progress 1 100 w0 1%positive c eq_refl)
      as (_ & H1 & _ & _ & H2) end.
  - cbn. lra.
  - cbn. lra.
  - split; assumption.
Defined.

Lemma frame_completes_witness :
  let cl := {| cl_target := {| theta := 1; phi := 0 |}; cl_duration := 300;
               cl_easing := linear |} in
  let w := {| hook := {| currentState := Ok {| theta := 0; phi := 0 |};
                         animationRef := Some 1%positive;
                         startStateRef := Ok {| theta := 0; phi := 0 |};
                         startTimeRef := Some 0;
                         isFirstRender := false;
                         prevTargetRef := {| theta := 1; phi := 0 |} |};
              frames := [(1%positive, cl)]; next_frame := 2%positive;
              cleanup := true; deps := None; log := [] |} in
  (frames w = [(1%positive, cl)] /\ 0 < cl_duration cl
   /\ cl_duration cl <= 400 - 0)
  /\ frames (frame 1 400 w) = []
  /\ log (frame 1 400 w) = [AnimationEnd (cl_target cl)].
Proof.
  cbv zeta. cbn [frames cl_duration]. split; [repeat split; lra|].
  match goal with |- frames (frame 1 400 ?w0) = [] /\ _ =>
    destruct (frame_completes 1 400 w0 1%positive
                {| cl_target := {| theta := 1; phi := 0 |}; cl_duration := 300;
                   cl_easing := linear |} eq_refl)
      as (_ & H1 & _ & H2 & _) end.
  - cbn. lra.
  - cbn. lra.
  - split; assumption.
Defined.

(** X17.  Where an animation lands.  When the duration has passed, the
    start and the target have their angles in [[0, PI]] and [[0, 2 PI)],
    the target is away from the poles ([theta] between [0.001] and [3])
    and [slerp] does not divide by zero, the refresh empties the queue and
    leaves the hook within [1e-6] of the target in both angles, so that
    [useAnimationStatus] reports no animation for any threshold of
    [1e-6] or more (the default is [0.001]). *)
Theorem animation_lands_on_target (fuel : nat) (timestamp threshold : R)
    (w : World) (s0 : SphericalCoordinates) :
  reachable (S fuel) w -> in_flight w ->
  startStateRef (hook w) = Ok s0 ->
  let target := prevTargetRef (hook w) in
  0 <= theta s0 <= PI -> 0 <= phi s0 < 2 * PI ->
  1 / 1000 <= theta target <= 3 -> 0 <= phi target < 2 * PI ->
  great_circle_defined s0 target ->
  (forall id cl, In (id, cl) (frames w) ->
     let st := match startTimeRef (hook w) with
               | None => timestamp | Some t0 => t0 end in
     0 < cl_duration cl /\ cl_duration cl <= timestamp - st) ->
  1 / 1000000 <= threshold ->
  let w' := frame (S fuel) timestamp w in
  frames w' = []
  /\ exists current,
       currentState (hook w') = Ok current
       /\ Rabs (theta current - theta target) <= 1 / 1000000
       /\ Rabs (phi current - phi target) <= 1 / 1000000
       /\ useAnimationStatus target current threshold = false.
Proof.
  intros Hreach Hfl Hs0 target _ _ Hth Hph Hdef Hdur Hthr. cbv zeta.
  apply defined_not_opposite in Hdef. pose proof PI2_3_2 as HPI3.
  pose proof (reachable_Inv _ w Hreach) as (_ & _ & Hone).
  destruct Hone as [Hf | (id & cl & Hf & _ & Hcl & _)]; [contradiction|].
  destruct (Hdur id cl) as [Hd1 Hd2]; [rewrite Hf; left; reflexivity|].
  rewrite (frame_ends (S fuel) timestamp w id cl Hf Hd1 Hd2).
  cbn [hook currentState frames]. rewrite Hs0, Hcl. cbn [bind].
  fold target.
  destruct (slerp_end fuel s0 target) as (r & Hr & _ & Hback); [lra | exact Hdef|].
  rewrite Hr, Hback by lra.
  split; [reflexivity|]. exists target. split; [reflexivity|].
  rewrite !Rminus_diag, Rabs_R0.
  split; [lra|]. split; [lra|].
  unfold useAnimationStatus, Math_abs. rewrite !Rminus_diag, Rabs_R0.
  destruct (Rlt_dec threshold 0); [lra | reflexivity].
Qed.

Lemma animation_lands_on_target_witness :
  let cfg := {| enabled := None; duration := None; easing := None |} in
  let T0 := {| theta := PI / 2; phi := 0 |} in
  let A := {| theta := PI / 2; phi := PI / 2 |} in
  let w := frame 1 16 (render A cfg (mount T0 cfg)) in
  (reachable 1 w /\ in_flight w /\ startStateRef (hook w) = Ok T0
   /\ prevTargetRef (hook w) = A /\ great_circle_defined T0 A)
  /\ frames (frame 1 400 w) = []
  /\ exists current,
       currentState (hook (frame 1 400 w)) = Ok current
       /\ Rabs (theta current - theta (prevTargetRef (hook w))) <= 1 / 1000000
       /\ Rabs (phi current - phi (prevTargetRef (hook w))) <= 1 / 1000000
       /\ useAnimationStatus (prevTargetRef (hook w)) current (1 / 1000) = false.
Proof.
  cbv zeta. assert (HPI := PI_RGT_0). pose proof PI2_1 as HPI2.
  pose proof PI_4 as HPI4.
  set (cfg := {| enabled := None; duration := None; easing := None |}).
  set (T0 := {| theta := PI / 2; phi := 0 |}).
  set (A := {| theta := PI / 2; phi := PI / 2 |}).
  set (clA := {| cl_target := A; cl_duration := 300; cl_easing := easeInOut |}).
  assert (HA : render A cfg (mount T0 cfg) =
               {| hook :=
                    {| currentState := Ok T0;
                       animationRef := Some 1%positive;
                       startStateRef := Ok T0;
                       startTimeRef := None;
                       isFirstRender := false;
                       prevTargetRef := A |};
                  frames := [(1%positive, clA)];
                  next_frame := 2%positive;
                  cleanup := true;
                  deps := Some (deps_of A cfg);
                  log := [AnimationStart A] |}).
  { rewrite render_supersedes;
      [reflexivity | apply Inv_mount | right; cbn; lra | reflexivity]. }
  set (w := frame 1 16 (render A cfg (mount T0 cfg))).
  assert (Hw : frames w = [(2%positive, clA)]
               /\ startStateRef (hook w) = Ok T0
               /\ prevTargetRef (hook w) = A
               /\ startTimeRef (hook w) = Some 16).
  { unfold w. rewrite HA.
    match goal with |- context [frame 1 16 ?w0] =>
      rewrite (frame_continues 1 16 w0 1%positive clA eq_refl);
        [cbn; auto | cbn; lra | cbn; lra] end. }
  destruct Hw as (Hf & Hs & Hp & Ht).
  assert (Hreach : reachable 1 w)
    by (unfold w; apply reach_frame, reach_render, reach_mount).
  assert (Hfl : in_flight w) by (unfold in_flight; rewrite Hf; discriminate).
  assert (Hdef : great_circle_defined T0 A).
  { unfold great_circle_defined, dot, sphericalToCartesian, Math_sin, Math_cos,
      A, T0.
    cbn [x y z theta phi]. rewrite sin_PI2, cos_PI2, sin_0, cos_0.
    replace (1 * 1 * (1 * 0) + 1 * 0 * (1 * 1) + 0 * 0) with 0 by ring.
    replace (Math_max (-1) (Math_min 1 0)) with 0
      by (unfold Math_max, Math_min, Rmax, Rmin;
          destruct (Rle_dec 1 0); destruct (Rle_dec (-1) 0);
          destruct (Rle_dec (-1) 1); lra).
    right. rewrite acos_0, sin_PI2. lra. }
  split; [repeat split; assumption|].
  apply (animation_lands_on_target 0 400 (1 / 1000) w T0 Hreach Hfl Hs).
  - unfold T0. cbn [theta]. lra.
  - unfold T0. cbn [phi]. lra.
  - rewrite Hp. unfold A. cbn [theta]. lra.
  - rewrite Hp. unfold A. cbn [phi]. lra.
  - rewrite Hp. exact Hdef.
  - intros id cl Hin. rewrite Hf in Hin. destruct Hin as [E | []].
    inversion E; subst. rewrite Ht. cbn. lra.
  - lra.
Defined.

(** ** Start and end events *)

Lemma starts_app (l : list Event) (ev : Event) :
  starts (l ++ [ev]) = (starts l + (if is_start ev then 1 else 0))%nat.
Proof.
  unfold starts. induction l as [| a l IH]; cbn.
  - destruct (is_start ev); reflexivity.
  - destruct (is_start a); cbn; rewrite IH; reflexivity.
Qed.

Lemma ends_app (l : list Event) (ev : Event) :
  ends (l ++ [ev]) = (ends l + (if is_end ev then 1 else 0))%nat.
Proof.
  unfold ends. induction l as [| a l IH]; cbn.
  - destruct (is_end ev); reflexivity.
  - destruct (is_end a); cbn; rewrite IH; reflexivity.
Qed.

(** A render either leaves the world as it is, or leaves the log as it is
    and no frame requested, or starts an animation. *)
Lemma render_cases (w : World) (B : SphericalCoordinates) (cfg : AnimationConfig) :
  Inv w ->
  render B cfg w = w
  \/ (frames (render B cfg w) = [] /\ log (render B cfg w) = log w)
  \/ (frames (render B cfg w) <> []
      /\ log (render B cfg w) = log w ++ [AnimationStart B]).
Proof.
  intros HI.
  destruct (Req_dec_T (theta (prevTargetRef (hook w))) (theta B)) as [Et | Et];
    [destruct (Req_dec_T (phi (prevTargetRef (hook w))) (phi B)) as [Ep | Ep]|].
  - pose proof HI as (_ & (d & Hd & _) & _).
    destruct (same_deps d (deps_of B cfg)) eqn:E.
    + left. unfold render. rewrite Hd, E. reflexivity.
    + right; left.
      rewrite (render_other_config w B cfg d HI Et Ep Hd E). auto.
  - destruct (cfg_enabled cfg) eqn:Hen.
    + right; right. rewrite render_supersedes by auto. cbn. split; [discriminate | reflexivity].
    + right; left. rewrite render_disabled by auto. auto.
  - destruct (cfg_enabled cfg) eqn:Hen.
    + right; right. rewrite render_supersedes by auto. cbn. split; [discriminate | reflexivity].
    + right; left. rewrite render_disabled by auto. auto.
Qed.

(** X18.  In every world the hook can reach, [onEnd] has been called at
    most as often as [onStart], and strictly less often while a frame is
    requested: an end is never reported without its start, and an
    animation in flight has not reported its end. *)
Theorem ends_follow_starts (fuel : nat) (w : World) :
  reachable fuel w ->
  (ends (log w) <= starts (log w))%nat
  /\ (in_flight w -> (ends (log w) < starts (log w))%nat).
Proof.
  unfold in_flight. induction 1 as [t c | t c w Hw IH | ts w Hw IH].
  - cbn. split; [lia | intros H; contradiction].
  - destruct IH as [IH1 IH2].
    destruct (render_cases w t c (reachable_Inv _ _ Hw))
      as [E | [[Hf Hl] | [Hf Hl]]].
    + rewrite E. auto.
    + rewrite Hf, Hl. split; [exact IH1 | intros H; contradiction].
    + rewrite Hl, starts_app, ends_app. cbn. split; [lia | intros _; lia].
  - destruct IH as [IH1 IH2].
    pose proof (reachable_Inv _ _ Hw) as (_ & _ & Hone).
    destruct Hone as [Hf | (id & cl & Hf & _ & _ & _)].
    + rewrite frame_idle by exact Hf. auto.
    + assert (Hfl : frames w <> []) by (rewrite Hf; discriminate).
      specialize (IH2 Hfl).
      unfold frame. rewrite Hf. cbn [fold_left snd]. unfold animate.
      destruct (progress_lt_1 _ _); cbn [log frames requestAnimationFrame
        set_hook emit snd fst app].
      * split; [lia | intros _; exact IH2].
      * rewrite starts_app, ends_app. cbn.
        split; [lia | intros H; contradiction].
Qed.

Lemma ends_follow_starts_witness :
  let cfg := {| enabled := None; duration := None; easing := None |} in
  let w := render {| theta := 1; phi := 0 |} cfg
             (mount {| theta := 0; phi := 0 |} cfg) in
  reachable 1 w
  /\ (ends (log w) <= starts (log w))%nat
  /\ (in_flight w -> (ends (log w) < starts (log w))%nat).
Proof.
  cbv zeta.
  assert (H : reachable 1
                (render {| theta := 1; phi := 0 |}
                   {| enabled := None; duration := None; easing := None |}
                   (mount {| theta := 0; phi := 0 |}
                      {| enabled := None; duration := None; easing := None |})))
    by apply reach_render, reach_mount.
  split; [exact H|]. apply (ends_follow_starts 1 _ H).
Defined.

(** ** BlochSphere.tsx *)

(** X19.  Whatever amplitudes a state is handed over in, stretched by a
    positive factor between [2^-400] and [2^400] and turned by a global
    phase, the target [BlochSphere] computes from them is the one it
    takes from the state given in angles; for a state away from the poles
    ([theta] between [0.001] and [3]) and from the seam of [phi] ([phi]
    between [0.001] and [6]). *)
Theorem targetSpherical_any_representative (fuel : nat) (c gamma : R)
    (s : SphericalCoordinates) :
  1 / 1000 <= theta s <= 3 -> 1 / 1000 <= phi s <= 6 -> safe_factor c ->
  targetSpherical (S fuel)
    (amplitudes (global_phase gamma (rescale c (sphericalToAmplitudes s))))
  = targetSpherical (S fuel) (spherical s).
Proof.
  intros Hth Hph Hc. apply safe_factor_pos in Hc.
  cbn [targetSpherical]. assert (HPI := PI_RGT_0). pose proof PI2_3_2 as HPI3.
  assert (Hcos : 0 < cos (theta s / 2)) by (apply cos_gt_0; lra).
  assert (Hsin : 0 < sin (theta s / 2)) by (apply sin_gt_0; lra).
  rewrite amplitudesToSpherical_phase.
  - rewrite amplitudesToSpherical_rescale by exact Hc.
    destruct s as [th ph]. cbn [theta phi] in *.
    apply amplitude_roundtrip; lra.
  - unfold rescale, sphericalToAmplitudes, Math_sin, Math_cos.
    cbn [alpha beta real imag].
    assert (0 < c * cos (theta s / 2)) by (apply Rmult_lt_0_compat; lra). nra.
  - unfold rescale, sphericalToAmplitudes, Math_sin, Math_cos.
    cbn [alpha beta real imag].
    pose proof (sin2_cos2 (phi s)) as H. unfold Rsqr in H.
    assert (Hk : 0 < c * sin (theta s / 2)) by (apply Rmult_lt_0_compat; lra).
    replace ((c * (sin (theta s / 2) * cos (phi s))) ^ 2
             + (c * (sin (theta s / 2) * sin (phi s))) ^ 2)
      with ((c * sin (theta s / 2)) ^ 2
            * (sin (phi s) * sin (phi s) + cos (phi s) * cos (phi s))) by ring.
    rewrite H. nra.
Qed.

Lemma targetSpherical_any_representative_witness :
  let s := {| theta := PI / 2; phi := 1 |} in
  (1 / 1000 <= theta s <= 3 /\ 1 / 1000 <= phi s <= 6 /\ safe_factor 2)
  /\ targetSpherical 1
       (amplitudes (global_phase 1 (rescale 2 (sphericalToAmplitudes s))))
     = targetSpherical 1 (spherical s).
Proof.
  cbv zeta. cbn [theta phi]. pose proof PI2_1 as HPI2. pose proof PI_4 as HPI4.
  assert (Hc : safe_factor 2) by (apply safe_factor_moderate; lra).
  split; [split; [lra | split; [lra | exact Hc]]|].
  apply (targetSpherical_any_representative 0 2 1
           {| theta := PI / 2; phi := 1 |}); cbn [theta phi]; [lra | lra | exact Hc].
Defined.

Lemma notified_run (states : list SphericalCoordinates) (n : Notifier) :
  notified (run_notify true states n)
  = notified n
    ++ map (fun s => (s, sphericalToCartesian s))
         (drop_repeats (prevStateRef n) states).
Proof.
  unfold run_notify. revert n.
  induction states as [| s rest IH]; intros n; cbn [fold_left drop_repeats map].
  - rewrite app_nil_r. reflexivity.
  - rewrite IH. unfold notifyEffect, same_angles.
    destruct (prevStateRef n) as [p |] eqn:Ep.
    + destruct (Req_b (theta p) (theta s) && Req_b (phi p) (phi s)) eqn:E.
      * rewrite Ep. reflexivity.
      * cbn [prevStateRef notified map]. rewrite <- app_assoc. reflexivity.
    + cbn [prevStateRef notified map]. rewrite <- app_assoc. reflexivity.
Qed.

Lemma drop_repeats_distinct (states : list SphericalCoordinates)
    (last : option SphericalCoordinates) :
  distinct_neighbours (drop_repeats last states)
  /\ forall p s rest, last = Some p ->
       drop_repeats last states = s :: rest -> same_angles p s = false.
Proof.
  revert last. induction states as [| a l IH]; intros last; cbn [drop_repeats].
  - split; [exact I | intros; discriminate].
  - destruct last as [p |].
    + destruct (same_angles p a) eqn:E.
      * apply IH.
      * destruct (IH (Some a)) as [IH1 IH2]. split.
        -- cbn [distinct_neighbours].
           destruct (drop_repeats (Some a) l) as [| b l'] eqn:El; [exact I|].
           split; [apply (IH2 a b l' eq_refl eq_refl) | exact IH1].
        -- intros p' s rest Hp Hs. injection Hp as <-. injection Hs as <- _.
           exact E.
    + destruct (IH (Some a)) as [IH1 IH2]. split.
      * cbn [distinct_neighbours].
        destruct (drop_repeats (Some a) l) as [| b l'] eqn:El; [exact I|].
        split; [apply (IH2 a b l' eq_refl eq_refl) | exact IH1].
      * intros; discriminate.
Qed.

(** X20.  The change notification of [BlochSphere].  Over any sequence of
    states the effect runs on, starting with nothing notified,
    [onStateChange] is called exactly for the states whose angles differ
    from the last notified ones, in order: never twice in a row with the
    same angles.  Each call carries the state and
    [sphericalToCartesian] of it, a unit vector.  Without the callback
    nothing is recorded. *)
Theorem notifications_without_repeats (states : list SphericalCoordinates) :
  let fresh := {| prevStateRef := None; notified := [] |} in
  let n := run_notify true states fresh in
  map fst (notified n) = drop_repeats None states
  /\ distinct_neighbours (map fst (notified n))
  /\ (forall s c, In (s, c) (notified n) ->
        c = sphericalToCartesian s /\ x c ^ 2 + y c ^ 2 + z c ^ 2 = 1)
  /\ run_notify false states fresh = fresh.
Proof.
  cbv zeta. rewrite notified_run. cbn [notified prevStateRef app].
  rewrite map_map. cbn [fst]. rewrite map_id.
  split; [reflexivity|]. split; [apply drop_repeats_distinct|]. split.
  - intros s c Hin. apply in_map_iff in Hin. destruct Hin as (s' & E & _).
    injection E as <- <-. split; [reflexivity | apply norm_sphericalToCartesian].
  - unfold run_notify. induction states as [| s l IH]; [reflexivity | exact IH].
Qed.

(** ** Trajectory.tsx *)

(** X21.  With a positive [maxPoints], [Trajectory] keeps the most recent
    [maxPoints] points of the history (all of them when there are fewer),
    in order, each as the unit vector of its state with [y] and [z]
    swapped for the renderer; it draws a line when at least two are
    kept. *)
Theorem linePoints_recent (points : list SphericalCoordinates) (maxPoints : Z) :
  (0 < maxPoints)%Z ->
  let kept := Nat.min (length points) (Z.to_nat maxPoints) in
  linePoints points maxPoints
  = map (fun coords =>
           {| vx := x (sphericalToCartesian coords);
              vy := z (sphericalToCartesian coords);
              vz := y (sphericalToCartesian coords) |})
        (skipn (length points - kept) points)
  /\ length (linePoints points maxPoints) = kept
  /\ (forall v, In v (linePoints points maxPoints) ->
        vx v ^ 2 + vy v ^ 2 + vz v ^ 2 = 1)
  /\ Trajectory_draws points maxPoints = (2 <=? kept)%nat.
Proof.
  intros Hm. cbv zeta.
  assert (E : linePoints points maxPoints
              = map (fun coords =>
                       {| vx := x (sphericalToCartesian coords);
                          vy := z (sphericalToCartesian coords);
                          vz := y (sphericalToCartesian coords) |})
                    (skipn (length points
                            - Nat.min (length points) (Z.to_nat maxPoints))
                       points)).
  { unfold linePoints, slice_from.
    destruct (- maxPoints <? 0)%Z eqn:Hneg; [|apply Z.ltb_ge in Hneg; lia].
    f_equal. f_equal. lia. }
  assert (L : length (linePoints points maxPoints)
              = Nat.min (length points) (Z.to_nat maxPoints)).
  { rewrite E, length_map, length_skipn. lia. }
  split; [exact E|]. split; [exact L|]. split.
  - rewrite E. intros v Hin. apply in_map_iff in Hin.
    destruct Hin as (c & <- & _). cbn [vx vy vz].
    pose proof (norm_sphericalToCartesian c). lra.
  - unfold Trajectory_draws. rewrite L.
    destruct (Nat.ltb_spec (Nat.min (length points) (Z.to_nat maxPoints)) 2);
      destruct (Nat.leb_spec 2 (Nat.min (length points) (Z.to_nat maxPoints)));
      cbn; (reflexivity || lia).
Qed.

Lemma linePoints_recent_witness :
  let points := [ {| theta := 0; phi := 0 |}; {| theta := 1; phi := 0 |};
                  {| theta := 2; phi := 0 |} ] in
  (0 < 2)%Z
  /\ length (linePoints points 2) = 2%nat
  /\ Trajectory_draws points 2 = true.
Proof.
  cbv zeta. split; [lia|].
  destruct (linePoints_recent
              [ {| theta := 0; phi := 0 |}; {| theta := 1; phi := 0 |};
                {| theta := 2; phi := 0 |} ] 2 ltac:(lia))
    as (_ & L & _ & D).
  split; [exact L | exact D].
Defined.

(** X22.  [maxPoints = 0] does not empty the line: [points.slice (-0)] is
    the whole array, so every point of the history is kept; and a
    negative [maxPoints] drops that many of the oldest points instead of
    keeping that many of the newest. *)
Theorem linePoints_not_positive (points : list SphericalCoordinates)
    (maxPoints : Z) :
  (maxPoints <= 0)%Z ->
  linePoints points maxPoints
  = map (fun coords =>
           {| vx := x (sphericalToCartesian coords);
              vy := z (sphericalToCartesian coords);
              vz := y (sphericalToCartesian coords) |})
        (skipn (Z.to_nat (- maxPoints)) points)
  /\ (maxPoints = 0%Z ->
      length (linePoints points maxPoints) = length points).
Proof.
  intros Hm.
  assert (E : slice_from (- maxPoints)%Z points
              = skipn (Z.to_nat (- maxPoints)) points).
  { unfold slice_from.
    destruct (- maxPoints <? 0)%Z eqn:Hneg; [apply Z.ltb_lt in Hneg; lia|].
    destruct (Z_le_gt_dec (- maxPoints) (Z.of_nat (length points))) as [H | H].
    - rewrite Z.min_l by lia. reflexivity.
    - rewrite Z.min_r by lia. rewrite Nat2Z.id.
      rewrite !skipn_all2 by lia. reflexivity. }
  unfold linePoints. rewrite E. split; [reflexivity|].
  intros ->. cbn [Z.opp Z.to_nat skipn]. apply length_map.
Qed.

Lemma linePoints_not_positive_witness :
  let points := [ {| theta := 0; phi := 0 |}; {| theta := 1; phi := 0 |} ] in
  (0 <= 0)%Z /\ length (linePoints points 0) = 2%nat.
Proof.
  cbv zeta. split; [lia|].
  destruct (linePoints_not_positive
              [ {| theta := 0; phi := 0 |}; {| theta := 1; phi := 0 |} ] 0
              ltac:(lia)) as (_ & L).
  exact (L eq_refl).
Defined.

(** ** EquatorCircle.tsx *)

Lemma equator_point_ok (segments i : nat) :
  (0 < segments)%nat ->
  equator_point segments i
  = Ok {| vx := cos (INR i / INR segments * PI * 2); vy := 0;
          vz := sin (INR i / INR segments * PI * 2) |}.
Proof.
  intros H. unfold equator_point.
  rewrite div_ok by (apply not_0_INR; lia). reflexivity.
Qed.

(** X23.  For a positive number of segments the equator is drawn through
    [segments + 1] points of the unit circle in the plane [y = 0] of the
    renderer, the first and the last both at [(1, 0, 0)], so that the
    curve closes; with [segments = 0] the single point is not a finite
    one. *)
Theorem equator_closed_circle (segments : nat) :
  (0 < segments)%nat ->
  length (equatorPoints segments) = S segments
  /\ (forall p, In p (equatorPoints segments) ->
        exists v, p = Ok v /\ vx v ^ 2 + vz v ^ 2 = 1 /\ vy v = 0)
  /\ hd NonFinite (equatorPoints segments) = Ok {| vx := 1; vy := 0; vz := 0 |}
  /\ last (equatorPoints segments) NonFinite
     = Ok {| vx := 1; vy := 0; vz := 0 |}
  /\ equatorPoints 0 = [NonFinite].
Proof.
  intros Hs. unfold equatorPoints. split; [|split; [|split; [|split]]].
  - rewrite length_map, length_seq. reflexivity.
  - intros p Hin. apply in_map_iff in Hin. destruct Hin as (i & <- & _).
    rewrite equator_point_ok by exact Hs. eexists; split; [reflexivity|].
    cbn [vx vy vz]. split; [|reflexivity].
    pose proof (sin2_cos2 (INR i / INR segments * PI * 2)) as H.
    unfold Rsqr in H. lra.
  - cbn [seq map hd]. rewrite equator_point_ok by exact Hs.
    replace (INR 0 / INR segments * PI * 2) with 0
      by (cbn [INR]; unfold Rdiv; ring).
    rewrite cos_0, sin_0. reflexivity.
  - rewrite seq_S, map_app. cbn [map Nat.add]. rewrite last_last.
    rewrite equator_point_ok by exact Hs.
    replace (INR segments / INR segments * PI * 2) with (2 * PI)
      by (field; apply not_0_INR; lia).
    rewrite cos_2PI, sin_2PI. reflexivity.
  - cbn [seq map]. unfold equator_point, div. cbn [INR].
    destruct (Req_dec_T 0 0) as [_ | H]; [reflexivity | contradiction].
Qed.

Lemma equator_closed_circle_witness :
  (0 < 64)%nat /\ length (equatorPoints 64) = 65%nat.
Proof.
  split; [lia|].
  destruct (equator_closed_circle 64 ltac:(lia)) as (L & _). exact L.
Defined.

(** ** How the converters fit together *)

(** X24.  [sphericalToCartesian] and [sphericalToAmplitudes] agree: the
    vector of a state is the Bloch vector of its amplitudes,
    [x = 2 Re (conj (alpha) beta)], [y = 2 Im (conj (alpha) beta)],
    [z = |alpha|^2 - |beta|^2]. *)
Theorem cartesian_is_bloch_vector (s : SphericalCoordinates) :
  let amp := sphericalToAmplitudes s in
  let v := sphericalToCartesian s in
  x v = 2 * (real (alpha amp) * real (beta amp)
             + imag (alpha amp) * imag (beta amp))
  /\ y v = 2 * (real (alpha amp) * imag (beta amp)
                - imag (alpha amp) * real (beta amp))
  /\ z v = (real (alpha amp) ^ 2 + imag (alpha amp) ^ 2)
           - (real (beta amp) ^ 2 + imag (beta amp) ^ 2).
Proof.
  cbv zeta. unfold sphericalToAmplitudes, sphericalToCartesian, Math_sin, Math_cos.
  cbn [alpha beta real imag x y z].
  assert (Hs : sin (theta s) = 2 * sin (theta s / 2) * cos (theta s / 2)).
  { rewrite <- sin_2a. f_equal. field. }
  assert (Hc : cos (theta s)
               = cos (theta s / 2) * cos (theta s / 2)
                 - sin (theta s / 2) * sin (theta s / 2)).
  { rewrite <- cos_2a. f_equal. field. }
  rewrite Hs, Hc.
  pose proof (sin2_cos2 (phi s)) as H. unfold Rsqr in H.
  repeat split; try ring.
  replace ((sin (theta s / 2) * cos (phi s)) ^ 2
           + (sin (theta s / 2) * sin (phi s)) ^ 2)
    with (sin (theta s / 2) ^ 2
          * (sin (phi s) * sin (phi s) + cos (phi s) * cos (phi s))) by ring.
  rewrite H. ring.
Qed.


(** X26.  The point opposite to [{theta, phi}] is [{PI - theta, phi + PI}]:
    its vector is the negated vector, and its amplitudes are orthogonal
    to the amplitudes of the point (their inner product is zero). *)
Theorem antipode_is_orthogonal (s : SphericalCoordinates) :
  let s' := {| theta := PI - theta s; phi := phi s + PI |} in
  let v := sphericalToCartesian s in
  let a := sphericalToAmplitudes s in
  let a' := sphericalToAmplitudes s' in
  sphericalToCartesian s' = {| x := - x v; y := - y v; z := - z v |}
  /\ real (alpha a) * real (alpha a') + imag (alpha a) * imag (alpha a')
     + (real (beta a) * real (beta a') + imag (beta a) * imag (beta a')) = 0
  /\ real (alpha a) * imag (alpha a') - imag (alpha a) * real (alpha a')
     + (real (beta a) * imag (beta a') - imag (beta a) * real (beta a')) = 0.
Proof.
  cbv zeta. unfold sphericalToCartesian, sphericalToAmplitudes, Math_sin, Math_cos.
  cbn [theta phi alpha beta real imag x y z].
  rewrite neg_sin, neg_cos.
  replace (PI - theta s) with (- theta s + PI) by ring.
  rewrite neg_sin, neg_cos, sin_neg, cos_neg.
  replace ((- theta s + PI) / 2) with (PI / 2 - theta s / 2) by field.
  rewrite sin_shift, cos_shift.
  pose proof (sin2_cos2 (phi s)) as H. unfold Rsqr in H.
  split; [f_equal; ring|]. split; [|ring].
  replace (cos (theta s / 2) * sin (theta s / 2) + 0 * 0
           + (sin (theta s / 2) * cos (phi s)
              * (cos (theta s / 2) * - cos (phi s))
              + sin (theta s / 2) * sin (phi s)
                * (cos (theta s / 2) * - sin (phi s))))
    with (cos (theta s / 2) * sin (theta s / 2)
          * (1 - (sin (phi s) * sin (phi s) + cos (phi s) * cos (phi s))))
    by ring.
  rewrite H. ring.
Qed.
